(** * socketio-redis-adapter: the relay servers, embedded and verified

    The repository holds three demo servers built on Fastify, Socket.IO and
    Redis, and a test client:

    - the pub/sub relay ([PubSub], channel "chat-messages");
    - the stream relay ([Streams], stream "chat-messages", group "chat-group");
    - the room relay ([Rooms], room "global-room" and server-side emits).

    Each server is embedded as handlers over an explicit process state; every
    handler returns the new state and the list of calls it made on the outside
    world (its [action]s), in program order. *)

From Stdlib Require Import ZArith Lia.
From stdpp Require Import base option list strings pretty gmap sorting.

Open Scope Z_scope.
Open Scope nat_scope.

(** ** JavaScript values and the calls the servers make *)

Definition socket_id := string.

(** A value stored in a plain object: the servers only store strings, and
    reading past the end of an array gives [undefined]. *)
Inductive jsval :=
| JStr (s : string)
| JUndefined.

#[global] Instance jsval_eq_dec : EqDecision jsval.
Proof. solve_decision. Defined.

(** A plain object with string keys. *)
Abbreviation jsobject := (gmap string jsval).

(** How a call ended. *)
Inductive outcome := Returned | Threw.

#[global] Instance outcome_eq_dec : EqDecision outcome.
Proof. solve_decision. Defined.

(** An entry of a Redis stream as XREADGROUP returns it: [[id, fields]]. Ids
    are generated by the broker ("*") and grow with every append; the sequence
    number stands for the id. *)
Definition entry := (nat * list string)%type.

(** The calls on the outside world, as the servers issue them. *)
Inductive action :=
| ConsoleLog (s : string)
| LogInfo (s : string)
| LogWarn (s : string)
| LogError (s : string)
| Publish (channel message : string)              (* pubClient.publish *)
| IoEmit (ev : string) (payload : jsobject)       (* io.emit returned *)
| IoEmitThrew (ev : string) (payload : jsobject)  (* io.emit threw *)
| Deliver (to : socket_id) (ev : string) (payload : jsobject)
                                                  (* one copy sent to a local socket *)
| BroadcastFrom (from : socket_id) (room ev : string) (payload : jsobject)
                                                  (* socket.to(room).emit *)
| ServerSideEmit (ev room : string) (id : socket_id)
| XGroupCreate (key group start : string)
| XReadGroup (group consumer : string) (count : nat) (block : N) (key from : string)
             (response : option (list entry))     (* the call resolved *)
| XReadGroupThrew (group consumer : string) (count : nat) (block : N) (key from : string)
| XAdd (key id : string) (fields : list string)
| XAck (key group : string) (id : nat)            (* the call resolved *)
| XAckThrew (key group : string) (id : nat)
| SocketDisconnect (sid : socket_id)              (* socket.disconnect(true) *)
| SocketDisconnectThrew (sid : socket_id)
| FastifyClose
| QuitPub
| QuitSub
| SetTimeout (ms : N)
| UncaughtException
| ProcessExit (code : Z).

#[global] Instance action_eq_dec : EqDecision action.
Proof. solve_decision. Defined.

(** [io.emit(ev, payload)] on a server whose local sockets are [socks]: every
    local socket is sent one copy. *)
Definition io_emit (socks : list socket_id) (ev : string) (payload : jsobject)
  : list action :=
  IoEmit ev payload :: map (λ s, Deliver s ev payload) socks.

(** ** String.prototype.includes *)

Fixpoint starts_with (s pre : string) {struct pre} : bool :=
  match pre, s with
  | EmptyString, _ => true
  | String c pre', String d s' => if decide (c = d) then starts_with s' pre' else false
  | String _ _, EmptyString => false
  end.

Fixpoint includes (s sub : string) : bool :=
  starts_with s sub ||
  match s with
  | EmptyString => false
  | String _ s' => includes s' sub
  end.

(** The specification of [includes]: [sub] occurs somewhere in [s]. *)
Definition occurs_in (sub s : string) : Prop :=
  ∃ before after, s = before +:+ sub +:+ after.

(** ** The process and its lifecycle (gracefulShutdown)

    The pub/sub relay and the stream relay share one lifecycle: the same
    [shutdownInProgress] flag and the same [gracefulShutdown]. A process holds
    the state of its variant ([app]), the sockets of [io.sockets.sockets] in
    insertion order, the flag, the [await] at which [gracefulShutdown] is
    suspended, and its exit status once [process.exit] ran. *)

Inductive drain_pc :=
| NotDraining
| AwaitClose      (* suspended at [await fastify.close()] *)
| AwaitQuit.      (* suspended at [await Promise.all([pubClient.quit(), subClient.quit()])] *)

#[global] Instance drain_pc_eq_dec : EqDecision drain_pc.
Proof. solve_decision. Defined.

Record proc (V : Type) := Proc {
  app : V;
  sockets : list socket_id;
  shutdownInProgress : bool;
  drain : drain_pc;
  exited : option Z
}.
Arguments Proc {V} _ _ _ _ _.
Arguments app {V} _.
Arguments sockets {V} _.
Arguments shutdownInProgress {V} _.
Arguments drain {V} _.
Arguments exited {V} _.

Definition set_app {V} (v : V) (p : proc V) : proc V :=
  Proc v (sockets p) (shutdownInProgress p) (drain p) (exited p).
Definition set_sockets {V} (l : list socket_id) (p : proc V) : proc V :=
  Proc (app p) l (shutdownInProgress p) (drain p) (exited p).
Definition set_shutdownInProgress {V} (b : bool) (p : proc V) : proc V :=
  Proc (app p) (sockets p) b (drain p) (exited p).
Definition set_drain {V} (d : drain_pc) (p : proc V) : proc V :=
  Proc (app p) (sockets p) (shutdownInProgress p) d (exited p).

(** [process.exit(code)]: nothing of the process runs afterwards. *)
Definition process_exit {V} (code : Z) (p : proc V) : proc V :=
  Proc (app p) (sockets p) (shutdownInProgress p) NotDraining (Some code).

(** A freshly started process. *)
Definition start {V} (v : V) : proc V := Proc v [] false NotDraining None.

(** [Map.prototype.set] and [Map.prototype.delete] on the keys of
    [io.sockets.sockets]. *)
Definition map_set (sid : socket_id) (socks : list socket_id) : list socket_id :=
  if decide (sid ∈ socks) then socks else socks ++ [sid].
Definition map_delete (sid : socket_id) (socks : list socket_id) : list socket_id :=
  filter (λ s, s ≠ sid) socks.

(** What the environment does to a process that concerns its lifecycle: a
    termination signal arrives ([throws] tells for which sockets
    [socket.disconnect(true)] throws), and the promises [gracefulShutdown]
    awaits settle. *)
Inductive lifecycle_event :=
| Signal (signal : string) (throws : socket_id → bool)
| CloseSettled (o : outcome)
| QuitSettled (pub sub : outcome).

Section Lifecycle.
Context {V : Type}.

(** The variant's "disconnect" listener of a socket. *)
Variable on_disconnect : socket_id → V → V * list action.

(** A socket closes (the client left, or [socket.disconnect(true)]): Socket.IO
    removes it from [io.sockets.sockets] and fires its "disconnect" listener. *)
Definition close_socket (sid : socket_id) (p : proc V) : proc V * list action :=
  let '(v, acts) := on_disconnect sid (app p) in
  (set_app v (set_sockets (map_delete sid (sockets p)) p), acts).

(** [io.sockets.sockets.forEach((socket) => { socket.disconnect(true); })] *)
Fixpoint disconnect_all (throws : socket_id → bool) (l : list socket_id) (p : proc V)
  : proc V * list action * outcome :=
  match l with
  | [] => (p, [], Returned)
  | sid :: l' =>
      if throws sid then (p, [SocketDisconnectThrew sid], Threw)
      else
        let '(p1, acts1) := close_socket sid p in
        let '(p2, acts2, o) := disconnect_all throws l' p1 in
        (p2, SocketDisconnect sid :: acts1 ++ acts2, o)
  end.

Definition shutdown_error : list action :=
  [LogError "Error occurred during graceful shutdown:"; ProcessExit 1].

(** [gracefulShutdown(signal)], up to its first [await]. *)
Definition gracefulShutdown (signal : string) (throws : socket_id → bool) (p : proc V)
  : proc V * list action :=
  if shutdownInProgress p then
    (p, [LogWarn ("Shutdown already in progress. Ignoring signal: " +:+ signal)])
  else
    let p := set_shutdownInProgress true p in
    let received :=
      LogInfo ("Received signal: " +:+ signal +:+ ". Starting graceful shutdown...") in
    let '(p, acts, o) := disconnect_all throws (sockets p) p in
    match o with
    | Threw => (process_exit 1 p, received :: acts ++ shutdown_error)
    | Returned =>
        (set_drain AwaitClose p,
         received :: acts ++
         [LogInfo "All Socket.IO connections have been closed."; FastifyClose])
    end.

(** [gracefulShutdown] resumes after [await fastify.close()]. *)
Definition after_close (o : outcome) (p : proc V) : proc V * list action :=
  match drain p, o with
  | AwaitClose, Returned =>
      (set_drain AwaitQuit p, [LogInfo "Fastify server has been closed."; QuitPub; QuitSub])
  | AwaitClose, Threw => (process_exit 1 p, shutdown_error)
  | _, _ => (p, [])
  end.

(** [gracefulShutdown] resumes after [await Promise.all([...quit()])]. *)
Definition after_quit (pub sub : outcome) (p : proc V) : proc V * list action :=
  match drain p, pub, sub with
  | AwaitQuit, Returned, Returned =>
      (process_exit 0 p,
       [LogInfo "Additional cleanup tasks completed.";
        LogInfo "Graceful shutdown complete. Exiting process...";
        ProcessExit 0])
  | AwaitQuit, _, _ => (process_exit 1 p, shutdown_error)
  | _, _, _ => (p, [])
  end.

Definition lifecycle (e : lifecycle_event) (p : proc V) : proc V * list action :=
  match e with
  | Signal signal throws => gracefulShutdown signal throws p
  | CloseSettled o => after_close o p
  | QuitSettled pub sub => after_quit pub sub p
  end.

(** A process that exited handles nothing. *)
Definition alive (handler : proc V → proc V * list action) (p : proc V)
  : proc V * list action :=
  match exited p with
  | Some _ => (p, [])
  | None => handler p
  end.

(** The lifecycle events of a run, in order, and the calls they make. *)
Fixpoint run_lifecycle (es : list lifecycle_event) (p : proc V) : proc V * list action :=
  match es with
  | [] => (p, [])
  | e :: es' =>
      let '(p1, acts1) := alive (lifecycle e) p in
      let '(p2, acts2) := run_lifecycle es' p1 in
      (p2, acts1 ++ acts2)
  end.

End Lifecycle.

(** The calls of a drain: closing a socket, closing the server, quitting a
    broker client. *)
Definition is_drain_action (a : action) : bool :=
  match a with
  | SocketDisconnect _ | SocketDisconnectThrew _ | FastifyClose | QuitPub | QuitSub => true
  | _ => false
  end.

Definition drain_actions (acts : list action) : list action :=
  filter (λ a, is_drain_action a = true) acts.

(** The full drain sequence of a process whose sockets are [socks]. *)
Definition full_drain (socks : list socket_id) : list action :=
  map SocketDisconnect socks ++ [FastifyClose; QuitPub; QuitSub].

Definition exit_codes (acts : list action) : list Z :=
  omap (λ a, match a with ProcessExit c => Some c | _ => None end) acts.

(** ** The pub/sub relay *)

Module PubSub.

Definition REDIS_CHANNEL : string := "chat-messages".

(** [EventEmitter.prototype.removeListener]: the most recently added instance
    of the listener is removed, if there is one. *)
Fixpoint remove_first (x : socket_id) (l : list socket_id) : list socket_id :=
  match l with
  | [] => []
  | y :: l' => if decide (x = y) then l' else y :: remove_first x l'
  end.

Definition removeListener (x : socket_id) (l : list socket_id) : list socket_id :=
  reverse (remove_first x (reverse l)).

(** The copies of [payload] sent to the local socket [sid] as event [ev]. *)
Definition copies (sid : socket_id) (ev : string) (payload : jsobject) (acts : list action)
  : nat :=
  length (filter (λ a, a = Deliver sid ev payload) acts).

Definition connected (sid : socket_id) : string := "New client connected: " +:+ sid.
Definition disconnected (sid : socket_id) : string := "Client disconnected: " +:+ sid.

(** [{ id: socket.id, message: text }] *)
Definition notice (sid : socket_id) (text : string) : jsobject :=
  <["id" := JStr sid]> (<["message" := JStr text]> ∅).

(** The variant's state: the "message" listeners of [subClient], in the order
    they were added. Every connection creates its own closure [onMessage]; a
    listener is named by the id of the socket whose handler created it. *)
Abbreviation process := (proc (list socket_id)).

Section WithJSON.

(** [JSON.stringify] on the notices the server publishes, and [JSON.parse] on
    what arrives from the channel ([None]: it throws a SyntaxError). *)
Variable JSON_stringify : jsobject → string.
Variable JSON_parse : string → option jsobject.

Definition listeners (p : process) : list socket_id := app p.

(** [onMessage(channel, message)]: the body does not use the socket of the
    connection that created it. *)
Definition onMessage (socks : list socket_id) (channel message : string)
  : list action * outcome :=
  if decide (channel = REDIS_CHANNEL) then
    let log := ConsoleLog ("Received message from " +:+ REDIS_CHANNEL +:+ ": " +:+ message) in
    match JSON_parse message with
    | Some payload => (log :: io_emit socks "new-message" payload, Returned)
    | None => ([log], Threw)
    end
  else ([], Returned).

(** [subClient.emit("message", channel, message)]: the listeners run in the
    order they were added; a listener that throws ends the dispatch. *)
Fixpoint emit_message (ls socks : list socket_id) (channel message : string)
  : list action * outcome :=
  match ls with
  | [] => ([], Returned)
  | _ :: ls' =>
      match onMessage socks channel message with
      | (acts, Threw) => (acts, Threw)
      | (acts, Returned) =>
          let '(acts', o) := emit_message ls' socks channel message in
          (acts ++ acts', o)
      end
  end.

(** The broker delivers [message] on [REDIS_CHANNEL]: [subClient] emits
    "message" and the listeners of that event run. They are the listeners the
    connections added: the adapter that was given the same client listens to
    the events "messageBuffer" and "pmessageBuffer" and drops what arrives on
    a channel that is not one of its own. An exception in a listener is not
    caught anywhere: the process dies with status 1.

    What arrives on the adapter's channels is handled by the adapter's
    listeners; such a delivery is not an event of this embedding. *)
Definition on_broker_message (message : string) (p : process)
  : process * list action :=
  match emit_message (listeners p) (sockets p) REDIS_CHANNEL message with
  | (acts, Returned) => (p, acts)
  | (acts, Threw) => (process_exit 1 p, acts ++ [UncaughtException])
  end.

(** [io.on("connection", (socket) => ...)] *)
Definition on_connection (sid : socket_id) (p : process) : process * list action :=
  let p := set_sockets (map_set sid (sockets p)) p in
  (set_app (listeners p ++ [sid]) p,
   [ConsoleLog (connected sid);
    Publish REDIS_CHANNEL (JSON_stringify (notice sid (connected sid)))]).

(** [socket.on("disconnect", async () => ...)] *)
Definition on_disconnect (sid : socket_id) (ls : list socket_id)
  : list socket_id * list action :=
  (removeListener sid ls,
   [ConsoleLog (disconnected sid);
    Publish REDIS_CHANNEL (JSON_stringify (notice sid (disconnected sid)));
    ConsoleLog ("Unsubscribed from " +:+ REDIS_CHANNEL +:+ " for client: " +:+ sid)]).

Inductive event :=
| Connection (sid : socket_id)
| Disconnect (sid : socket_id)
| Message (message : string)          (* a delivery on [REDIS_CHANNEL] *)
| Lifecycle (e : lifecycle_event).

Definition handle (e : event) (p : process) : process * list action :=
  alive (match e with
         | Connection sid => on_connection sid
         | Disconnect sid => close_socket on_disconnect sid
         | Message message => on_broker_message message
         | Lifecycle e => lifecycle on_disconnect e
         end) p.

Fixpoint run (es : list event) (p : process) : process * list action :=
  match es with
  | [] => (p, [])
  | e :: es' =>
      let '(p1, acts1) := handle e p in
      let '(p2, acts2) := run es' p1 in
      (p2, acts1 ++ acts2)
  end.

(** Socket.IO gives every connection a fresh id, and a socket disconnects
    once, while it is connected. *)
Definition enabled (p : process) (e : event) : Prop :=
  match e with
  | Connection sid => sid ∉ sockets p
  | Disconnect sid => sid ∈ sockets p
  | _ => True
  end.

Inductive reachable : process → Prop :=
| reachable_start : reachable (start [])
| reachable_step p e : reachable p → enabled p e → reachable (handle e p).1.

End WithJSON.

End PubSub.

(** The invariant of the pub/sub relay: the listeners are the connected
    sockets, each once. *)
Definition listeners_are_sockets (p : PubSub.process) : Prop :=
  PubSub.listeners p ≡ₚ sockets p ∧ NoDup (sockets p).

(** Stand-ins for [JSON.stringify] and [JSON.parse] in the examples: every
    object is written as [text], every message reads as [payload]. *)
Definition json_constant (text : string) : jsobject → string := λ _, text.
Definition json_reader (payload : jsobject) : string → option jsobject := λ _, Some payload.

(** ** The stream relay *)

Module Streams.

Definition STREAM_KEY : string := "chat-messages".
Definition CONSUMER_GROUP : string := "chat-group".
Definition CONSUMER_NAME (pid : nat) : string := "consumer-" +:+ pretty pid.

(** *** The notices and their field lists *)

(** [{ id, message, timestamp }], as [connectMessage] and [disconnectMessage]
    are built. *)
Record chat_message := ChatMessage {
  msg_id : string;
  msg_message : string;
  msg_timestamp : string
}.

Definition connectMessage (sid : socket_id) (now : string) : chat_message :=
  ChatMessage sid ("New client connected: " +:+ sid) now.

Definition disconnectMessage (sid : socket_id) (now : string) : chat_message :=
  ChatMessage sid ("Client disconnected: " +:+ sid) now.

(** The same notice as a plain object. *)
Definition to_object (m : chat_message) : jsobject :=
  <["timestamp" := JStr (msg_timestamp m)]>
    (<["message" := JStr (msg_message m)]>
       (<["id" := JStr (msg_id m)]> ∅)).

(** The field arguments of [xadd(STREAM_KEY, "*", "id", m.id, "message",
    m.message, "timestamp", m.timestamp)]. *)
Definition xadd_fields (m : chat_message) : list string :=
  ["id"; msg_id m; "message"; msg_message m; "timestamp"; msg_timestamp m].

(** [message[k] = v] on an object that [{}] created, for a value that is a
    string or [undefined]. The name "__proto__" is the accessor the object
    inherits from [Object.prototype]: its setter ignores a value that is
    neither an object nor [null], so that the assignment creates no property
    and leaves the object as it was. Under every other name the object gets
    the property, or a new value for it. *)
Definition set_property (k : string) (v : jsval) (message : jsobject) : jsobject :=
  if decide (k = "__proto__") then message else <[k := v]> message.

(** [for (let i = 0; i < fields.length; i += 2) message[fields[i]] = fields[i + 1];]
    A last field without a value reads [fields[i + 1]] past the end. *)
Fixpoint decode_into (message : jsobject) (fields : list string) : jsobject :=
  match fields with
  | [] => message
  | [k] => set_property k JUndefined message
  | k :: v :: rest => decode_into (set_property k (JStr v) message) rest
  end.

(** [const message = {}; for ...] *)
Definition decode (fields : list string) : jsobject := decode_into ∅ fields.

(** The flat list of the pairs [kvs]. *)
Definition flatten (kvs : list (string * string)) : list string :=
  flat_map (λ kv, [kv.1; kv.2]) kvs.

(** *** The broker: one Redis stream and its consumer groups

    The commands are the ones the server sends, with the meaning Redis gives
    them: XADD with id "*" appends under an id above every id of the stream;
    XGROUP CREATE ... "0" creates a group that has delivered nothing and fails
    with BUSYGROUP when the group exists; XREADGROUP ... ">" returns the
    entries the group never delivered (at most COUNT, null when there is
    none), records them as pending for the consumer and moves the group's
    last-delivered id to the last of them; XACK removes an id from the pending
    list. *)

Record group := Group {
  last_delivered : nat;
  pending : list (nat * string)      (* id, consumer it was delivered to *)
}.

Record broker := Broker {
  stream : list entry;
  groups : gmap string group
}.

Definition empty_broker : broker := Broker [] ∅.

Definition top_id (l : list entry) : nat := foldr (λ e m, e.1 `max` m) 0 l.

Definition xadd (b : broker) (fields : list string) : broker :=
  Broker (stream b ++ [(S (top_id (stream b)), fields)]) (groups b).

Inductive xgroup_result :=
| XGroupOk
| XGroupErr (message : string).

Definition BUSYGROUP : string := "BUSYGROUP Consumer Group name already exists".

Definition xgroup_create (b : broker) (g : string) : broker * xgroup_result :=
  match groups b !! g with
  | Some _ => (b, XGroupErr BUSYGROUP)
  | None => (Broker (stream b) (<[g := Group 0 []]> (groups b)), XGroupOk)
  end.

(** [None]: the group does not exist (NOGROUP), the call is rejected. *)
Definition xreadgroup (b : broker) (g consumer : string) (count : nat)
  : option (broker * option (list entry)) :=
  match groups b !! g with
  | None => None
  | Some gr =>
      let fresh := take count (filter (λ e, last_delivered gr < e.1) (stream b)) in
      match last fresh with
      | None => Some (b, None)
      | Some e =>
          Some (Broker (stream b)
                  (<[g := Group e.1 (pending gr ++ map (λ e, (e.1, consumer)) fresh)]>
                     (groups b)),
                Some fresh)
      end
  end.

Definition xack (b : broker) (g : string) (id : nat) : broker :=
  match groups b !! g with
  | None => b
  | Some gr =>
      Broker (stream b)
        (<[g := Group (last_delivered gr) (filter (λ ic, ic.1 ≠ id) (pending gr))]>
           (groups b))
  end.

(** The ids pending in group [g]. *)
Definition pending_ids (b : broker) (g : string) : list nat :=
  match groups b !! g with
  | None => []
  | Some gr => (pending gr).*1
  end.

(** The group's last-delivered id (0 before any delivery). *)
Definition last_delivered_id (b : broker) (g : string) : nat :=
  match groups b !! g with
  | None => 0
  | Some gr => last_delivered gr
  end.

(** *** The process *)

(** The variant's state: the process id and the wall clock as
    [new Date().toISOString()] reads it. *)
Record app_state := AppState {
  pid : nat;
  now : string
}.

Abbreviation process := (proc app_state).

(** [io.on("connection", (socket) => ...)] *)
Definition on_connection (sid : socket_id) (p : process) : process * list action :=
  (set_sockets (map_set sid (sockets p)) p,
   [ConsoleLog ("New client connected: " +:+ sid);
    XAdd STREAM_KEY "*" (xadd_fields (connectMessage sid (now (app p))))]).

(** [socket.on("disconnect", async () => ...)] *)
Definition on_disconnect (sid : socket_id) (v : app_state) : app_state * list action :=
  (v,
   [ConsoleLog ("Client disconnected: " +:+ sid);
    XAdd STREAM_KEY "*" (xadd_fields (disconnectMessage sid (now v)))]).

(** [initializeStream()], given how the XGROUP CREATE call ended. *)
Definition initializeStream (r : xgroup_result) (p : process) : process * list action :=
  let create := XGroupCreate STREAM_KEY CONSUMER_GROUP "0" in
  match r with
  | XGroupOk =>
      (p, [create;
           LogInfo ("Consumer group '" +:+ CONSUMER_GROUP +:+ "' created or already exists.")])
  | XGroupErr message =>
      if includes message "BUSYGROUP" then
        (p, [create; LogInfo ("Consumer group '" +:+ CONSUMER_GROUP +:+ "' already exists.")])
      else
        (process_exit 1 p, [create; LogError "Error creating consumer group:"; ProcessExit 1])
  end.

Inductive event :=
| Connection (sid : socket_id)
| Disconnect (sid : socket_id)
| Clock (now : string)
| Lifecycle (e : lifecycle_event).

Definition handle (e : event) (p : process) : process * list action :=
  alive (match e with
         | Connection sid => on_connection sid
         | Disconnect sid => close_socket on_disconnect sid
         | Clock t => λ p, (set_app (AppState (pid (app p)) t) p, [])
         | Lifecycle e => lifecycle on_disconnect e
         end) p.

(** *** The consumer loop *)

(** Which calls of the loop fail: the read of iteration [i], and the fan-out
    and the acknowledgment of the [k]-th entry of the batch of iteration [i]. *)
Record failures := Failures {
  read_fails : nat → bool;
  emit_fails : nat → nat → bool;
  ack_fails : nat → nat → bool
}.

Definition no_failures : failures := Failures (λ _, false) (λ _ _, false) (λ _ _, false).

Definition consume_error : action := LogError "Error consuming stream:".

(** [for (const [id, fields] of messages) { ... }], from the [k]-th entry of
    the batch on. [Threw]: an exception left the loop. *)
Fixpoint process_messages (env : failures) (it k : nat) (socks : list socket_id)
    (messages : list entry) (b : broker) : broker * list action * outcome :=
  match messages with
  | [] => (b, [], Returned)
  | (id, fields) :: rest =>
      let message := decode fields in
      let log := LogInfo ("Processing message ID " +:+ pretty id +:+ ":") in
      if emit_fails env it k then
        (b, [log; IoEmitThrew "new-message" message], Threw)
      else if ack_fails env it k then
        (b, log :: io_emit socks "new-message" message ++
               [XAckThrew STREAM_KEY CONSUMER_GROUP id], Threw)
      else
        let '(b', acts, o) :=
          process_messages env it (S k) socks rest (xack b CONSUMER_GROUP id) in
        (b', log :: io_emit socks "new-message" message ++
               XAck STREAM_KEY CONSUMER_GROUP id :: acts, o)
  end.

(** The body of [while (true) { try { ... } catch (err) { ... } }]. *)
Definition consume_body (env : failures) (it : nat) (p : process) (b : broker)
  : broker * list action :=
  let consumer := CONSUMER_NAME (pid (app p)) in
  let threw := XReadGroupThrew CONSUMER_GROUP consumer 10 5000%N STREAM_KEY ">" in
  if read_fails env it then (b, [threw; consume_error])
  else
    match xreadgroup b CONSUMER_GROUP consumer 10 with
    | None => (b, [threw; consume_error])
    | Some (b1, response) =>
        let read := XReadGroup CONSUMER_GROUP consumer 10 5000%N STREAM_KEY ">" response in
        match response with
        | None => (b1, [read])
        | Some messages =>
            let '(b2, acts, o) := process_messages env it 0 (sockets p) messages b1 in
            (b2, read :: acts ++ match o with Threw => [consume_error] | Returned => [] end)
        end
    end.

(** A [while] loop run for at most [fuel] iterations. *)
Inductive loop_result (S : Type) :=
| LoopExited (s : S)       (* the condition was false: the loop is over *)
| StillLooping (s : S).    (* the loop is about to start its next iteration *)
Arguments LoopExited {S} _.
Arguments StillLooping {S} _.

Fixpoint while_loop {S : Type} (cond : S → bool) (body : S → S * list action)
    (fuel : nat) (s : S) : loop_result S * list action :=
  match fuel with
  | 0 => (StillLooping s, [])
  | Datatypes.S fuel' =>
      if cond s then
        let '(s1, acts1) := body s in
        let '(r, acts2) := while_loop cond body fuel' s1 in
        (r, acts1 ++ acts2)
      else (LoopExited s, [])
  end.

(** [consumeStream()]: the loop state is the number of the iteration and the
    broker; the process (its sockets, its [shutdownInProgress]) is read, never
    written. [fuel] counts the iterations the process goes through while it
    runs. *)
Definition consumeStream (env : failures) (p : process) (fuel : nat) (it : nat) (b : broker)
  : loop_result (nat * broker) * list action :=
  while_loop (λ _, true)
    (λ s, let '(b', acts) := consume_body env s.1 p s.2 in ((S s.1, b'), acts))
    fuel (it, b).

(** *** Several processes on one group *)

(** One step of the group: some process runs [initializeStream], some process
    runs one iteration of its loop, or some process appends a notice. *)
Inductive step :=
| Init
| Consume (p : process)
| Append (fields : list string).

Fixpoint run_group (env : failures) (it : nat) (steps : list step) (b : broker)
  : broker * list action :=
  match steps with
  | [] => (b, [])
  | st :: steps' =>
      let '(b1, acts1) :=
        match st with
        | Init => ((xgroup_create b CONSUMER_GROUP).1, [])
        | Consume p => consume_body env it p b
        | Append fields => (xadd b fields, [])
        end in
      let '(b2, acts2) := run_group env (S it) steps' b1 in
      (b2, acts1 ++ acts2)
  end.

(** The ids a trace received from XREADGROUP, and the ids it acknowledged. *)
Definition delivered_ids (acts : list action) : list nat :=
  flat_map (λ a, match a with
                 | XReadGroup _ _ _ _ _ _ (Some messages) => messages.*1
                 | _ => []
                 end) acts.

Definition acked_ids (acts : list action) : list nat :=
  omap (λ a, match a with
             | XAck _ _ id | XAckThrew _ _ id => Some id
             | _ => None
             end) acts.

Definition is_read (a : action) : bool :=
  match a with
  | XReadGroup _ _ _ _ _ _ _ | XReadGroupThrew _ _ _ _ _ _ => true
  | _ => false
  end.

(** The XREADGROUP calls of a trace. *)
Definition reads (acts : list action) : nat :=
  length (filter (λ a, is_read a = true) acts).

End Streams.

(** ** The room relay *)

Module Rooms.

Definition GLOBAL_ROOM : string := "global-room".

(** The connection registry of the process: the rooms every local socket is
    in, in the order it joined them. A socket that is not connected has no
    entry. *)
Abbreviation registry := (gmap socket_id (list string)).

Definition joined (room id : string) : string :=
  "Socket " +:+ id +:+ " has joined room " +:+ room.
Definition left (room id : string) : string :=
  "Socket " +:+ id +:+ " has left room " +:+ room.

(** [io.of("/").adapter.on("join-room", (room, id) => ...)] *)
Definition adapter_join_room (room id : string) : list action :=
  if decide (room ≠ id) then [ConsoleLog (joined room id); ServerSideEmit "join-room" room id]
  else [].

(** [io.of("/").adapter.on("leave-room", (room, id) => ...)] *)
Definition adapter_leave_room (room id : string) : list action :=
  if decide (room ≠ id) then [ConsoleLog (left room id); ServerSideEmit "leave-room" room id]
  else [].

(** [io.on("join-room", ({ room, id }) => ...)]: the notification of a peer. *)
Definition remote_join_room (room id : string) (r : registry) : registry * list action :=
  (r, [ConsoleLog (joined room id)]).

(** [io.on("leave-room", ({ room, id }) => ...)]: the notification of a peer. *)
Definition remote_leave_room (room id : string) (r : registry) : registry * list action :=
  (r, [ConsoleLog (left room id)]).

(** [socket.join(room)]: the adapter adds the socket to the room and fires
    "join-room" when it was not in it. *)
Definition socket_join (sid : socket_id) (room : string) (r : registry)
  : registry * list action :=
  let rooms := default [] (r !! sid) in
  if decide (room ∈ rooms) then (r, [])
  else (<[sid := rooms ++ [room]]> r, adapter_join_room room sid).

(** The socket leaves every room it is in when it closes; the adapter fires
    "leave-room" for each. *)
Definition socket_leave_all (sid : socket_id) (r : registry) : registry * list action :=
  (delete sid r, flat_map (λ room, adapter_leave_room room sid) (default [] (r !! sid))).

Definition user_notice (sid : socket_id) (text : string) : jsobject :=
  <["id" := JStr sid]> (<["message" := JStr text]> ∅).

(** A client connects: Socket.IO puts the socket in the room named by its own
    id, then [io.on("connection", (socket) => ...)] runs. *)
Definition on_connection (sid : socket_id) (r : registry) : registry * list action :=
  let '(r1, acts1) := socket_join sid sid r in
  let '(r2, acts2) := socket_join sid GLOBAL_ROOM r1 in
  (r2,
   acts1 ++ ConsoleLog ("New client connected: " +:+ sid) :: acts2 ++
   [BroadcastFrom sid GLOBAL_ROOM "user-joined"
      (user_notice sid ("User " +:+ sid +:+ " has joined the " +:+ GLOBAL_ROOM))]).

(** A socket closes: it leaves its rooms, then
    [socket.on("disconnect", async () => ...)] runs. *)
Definition on_disconnect (sid : socket_id) (r : registry) : registry * list action :=
  let '(r1, acts1) := socket_leave_all sid r in
  (r1,
   acts1 ++
   [ConsoleLog ("Client disconnected: " +:+ sid);
    BroadcastFrom sid GLOBAL_ROOM "user-left"
      (user_notice sid ("User " +:+ sid +:+ " has left the " +:+ GLOBAL_ROOM))]).

Inductive event :=
| Connection (sid : socket_id)
| Disconnect (sid : socket_id)
| RemoteJoinRoom (room id : string)
| RemoteLeaveRoom (room id : string).

Definition handle (e : event) (r : registry) : registry * list action :=
  match e with
  | Connection sid => on_connection sid r
  | Disconnect sid => on_disconnect sid r
  | RemoteJoinRoom room id => remote_join_room room id r
  | RemoteLeaveRoom room id => remote_leave_room room id r
  end.

Fixpoint run (es : list event) (r : registry) : registry * list action :=
  match es with
  | [] => (r, [])
  | e :: es' =>
      let '(r1, acts1) := handle e r in
      let '(r2, acts2) := run es' r1 in
      (r2, acts1 ++ acts2)
  end.

Definition is_remote (e : event) : bool :=
  match e with
  | RemoteJoinRoom _ _ | RemoteLeaveRoom _ _ => true
  | _ => false
  end.

(** The outgoing notifications of a trace. *)
Definition server_side_emits (acts : list action) : list action :=
  filter (λ a, match a with ServerSideEmit _ _ _ => true | _ => false end = true) acts.

End Rooms.

(** ** Notions used by the properties *)

(** The signals of a run: each with the sockets whose close would throw. *)
Definition signals (l : list (string * (socket_id → bool))) : list lifecycle_event :=
  map (λ st, Signal st.1 st.2) l.

(** An acknowledgment call for the entry [id], resolved or not. *)
Definition is_ack (id : nat) (a : action) : Prop :=
  a = XAck Streams.STREAM_KEY Streams.CONSUMER_GROUP id
  ∨ a = XAckThrew Streams.STREAM_KEY Streams.CONSUMER_GROUP id.

(** The calls made for one entry up to the return of [io.emit]. *)
Definition fanout_of (socks : list socket_id) (e : entry) : list action :=
  LogInfo ("Processing message ID " +:+ pretty e.1 +:+ ":")
  :: io_emit socks "new-message" (Streams.decode e.2).

(** The calls made for one entry when nothing fails: the fan-out, then the
    acknowledgment. *)
Definition handled (socks : list socket_id) (e : entry) : list action :=
  fanout_of socks e ++ [XAck Streams.STREAM_KEY Streams.CONSUMER_GROUP e.1].

(** A call that threw. *)
Definition is_throw (a : action) : bool :=
  match a with
  | XReadGroupThrew _ _ _ _ _ _ | IoEmitThrew _ _ | XAckThrew _ _ _ => true
  | _ => false
  end.

(** A call that ends the process or waits: [process.exit], an uncaught
    exception, a timer. *)
Definition is_exit_or_wait (a : action) : bool :=
  match a with
  | ProcessExit _ | UncaughtException | SetTimeout _ => true
  | _ => false
  end.

(** The reading of "retried with backoff" on a trace: every error the loop
    logs is followed by a timer. *)
Definition backs_off (acts : list action) : Prop :=
  ∀ i, acts !! i = Some Streams.consume_error → ∃ ms, acts !! S i = Some (SetTimeout ms).

(** The ids of a stream grow along the stream. *)
Definition entries_ordered (l : list entry) : Prop :=
  StronglySorted (λ e e' : entry, e.1 < e'.1) l.

(** An entry that was delivered to the group and is still pending. *)
Definition delivered_unacked (b : Streams.broker) (x : nat) : Prop :=
  x ∈ Streams.pending_ids b Streams.CONSUMER_GROUP
  ∧ x ≤ Streams.last_delivered_id b Streams.CONSUMER_GROUP.

(** *** The processes, brokers and failures of the examples *)

(** A consumer process, the same process after a restart (another process
    id), and a process in the middle of a drain. *)
Definition consumer_process : Streams.process :=
  Proc (Streams.AppState 100 "2024-01-01T00:00:00.000Z") ["s"] false NotDraining None.

Definition restarted_process : Streams.process :=
  Proc (Streams.AppState 200 "2024-01-01T00:00:05.000Z") ["s"] false NotDraining None.

Definition draining_process : Streams.process :=
  (Streams.handle (Streams.Lifecycle (Signal "SIGTERM" (λ _, false))) consumer_process).1.

(** A broker whose group exists, and the same with one notice in the stream. *)
Definition group_created : Streams.broker :=
  (Streams.xgroup_create Streams.empty_broker Streams.CONSUMER_GROUP).1.

Definition one_notice : Streams.broker :=
  Streams.xadd group_created
    (Streams.xadd_fields (Streams.connectMessage "a" "2024-01-01T00:00:00.000Z")).

(** The first read fails; the fan-out of the first entry of the first batch
    fails; the fan-out of the second entry of every batch fails. *)
Definition read_fails_once : Streams.failures :=
  Streams.Failures (λ i, bool_decide (i = 0)) (λ _ _, false) (λ _ _, false).

Definition fanout_fails_first : Streams.failures :=
  Streams.Failures (λ _, false) (λ i k, bool_decide (i = 0 ∧ k = 0)) (λ _ _, false).

Definition fails_on_second : Streams.failures :=
  Streams.Failures (λ _, false) (λ _ k, bool_decide (k = 1)) (λ _ _, false).

(** ** Notions used by the further properties *)

(** A call that sends an event to local sockets. *)
Definition is_fanout (a : action) : bool :=
  match a with
  | IoEmit _ _ | IoEmitThrew _ _ | Deliver _ _ _ => true
  | _ => false
  end.

(** The notices a trace publishes: channel and message. *)
Definition publishes (acts : list action) : list (string * string) :=
  omap (λ a, match a with Publish c m => Some (c, m) | _ => None end) acts.

(** A parser that rejects every message. *)
Definition json_rejecting : string → option jsobject := λ _, None.

(** The stream appends of a trace: the field lists. *)
Definition xadds (acts : list action) : list (list string) :=
  omap (λ a, match a with XAdd _ _ fields => Some fields | _ => None end) acts.

(** The copies of anything sent to the local socket [sid]. *)
Definition is_delivery_to (sid : socket_id) (a : action) : bool :=
  match a with
  | Deliver to _ _ => bool_decide (to = sid)
  | _ => false
  end.

Definition deliveries_to (sid : socket_id) (acts : list action) : nat :=
  length (filter (λ a, is_delivery_to sid a = true) acts).

(** Nothing fails in iteration [it]. *)
Definition clean_iteration (env : Streams.failures) (it : nat) : Prop :=
  Streams.read_fails env it = false
  ∧ ∀ k, Streams.emit_fails env it k = false ∧ Streams.ack_fails env it k = false.

(** *** The drain of the room relay

    The room relay has the same [gracefulShutdown] up to
    [await fastify.close()]; after it, it logs and exits: it does not quit
    the broker clients. Its process holds the registry as the state of the
    variant. *)

Definition rooms_after_close (o : outcome) (p : proc Rooms.registry)
  : proc Rooms.registry * list action :=
  match drain p, o with
  | AwaitClose, Returned =>
      (process_exit 0 p,
       [LogInfo "Fastify server has been closed.";
        LogInfo "Additional cleanup tasks completed.";
        LogInfo "Graceful shutdown complete. Exiting process...";
        ProcessExit 0])
  | AwaitClose, Threw => (process_exit 1 p, shutdown_error)
  | _, _ => (p, [])
  end.

(** The room relay awaits nothing but the close of the server. *)
Definition rooms_lifecycle (e : lifecycle_event) (p : proc Rooms.registry)
  : proc Rooms.registry * list action :=
  alive (match e with
         | Signal signal throws => gracefulShutdown Rooms.on_disconnect signal throws
         | CloseSettled o => rooms_after_close o
         | QuitSettled _ _ => λ p, (p, [])
         end) p.

(** Every connected socket is registered in its own room and in the global
    room, as [Rooms.on_connection] leaves it. *)
Definition rooms_registered (p : proc Rooms.registry) : Prop :=
  NoDup (sockets p)
  ∧ ∀ s, s ∈ sockets p → s ≠ Rooms.GLOBAL_ROOM ∧ app p !! s = Some ([s; Rooms.GLOBAL_ROOM] : list string).

(** The group exists and has read the whole stream. *)
Definition stream_drained (b : Streams.broker) : Prop :=
  is_Some (Streams.groups b !! Streams.CONSUMER_GROUP)
  ∧ Forall (λ e : entry, e.1 ≤ Streams.last_delivered_id b Streams.CONSUMER_GROUP)
      (Streams.stream b)
  ∧ Streams.last_delivered_id b Streams.CONSUMER_GROUP ≤ Streams.top_id (Streams.stream b).

(** * Properties *)

(** ** The field lists of the stream relay *)

Lemma decode_into_flatten (kvs : list (string * string)) (message : jsobject) :
  Streams.decode_into message (Streams.flatten kvs)
  = foldl (λ m kv, Streams.set_property kv.1 (JStr kv.2) m) message kvs.
Proof.
  revert message. induction kvs as [|[k v] kvs IH]; intros message; [done|].
  cbn. apply IH.
Qed.

(** C9. The field list appended at publish time and the pairwise loop of the
    consumer are inverse: the decoded object has exactly the keys id, message
    and timestamp, with the strings of the notice as they were; it is the
    notice as an object; and the entry the broker stores for the append holds
    the field list unchanged, so that decoding the stored entry gives the
    notice back. *)
Theorem field_list_roundtrip (m : Streams.chat_message) (b : Streams.broker) :
  (∀ k : string,
     Streams.decode (Streams.xadd_fields m) !! k =
       if decide (k = "id") then Some (JStr (Streams.msg_id m))
       else if decide (k = "message") then Some (JStr (Streams.msg_message m))
       else if decide (k = "timestamp") then Some (JStr (Streams.msg_timestamp m))
       else None)
  ∧ Streams.decode (Streams.xadd_fields m) = Streams.to_object m
  ∧ ∃ id, last (Streams.stream (Streams.xadd b (Streams.xadd_fields m)))
          = Some (id, Streams.xadd_fields m)
          ∧ Streams.decode (id, Streams.xadd_fields m).2 = Streams.to_object m.
Proof.
  split; [|split].
  - intros k. change (Streams.decode (Streams.xadd_fields m)) with (Streams.to_object m).
    unfold Streams.to_object. repeat case_decide; simplify_map_eq; done.
  - reflexivity.
  - eexists. split; [|reflexivity]. unfold Streams.xadd. cbn. by rewrite last_snoc.
Qed.

(** ** Startup of the stream relay *)

(** [includes] finds the substring exactly when it occurs. *)
Lemma starts_with_spec s pre :
  starts_with s pre = true ↔ ∃ after, s = pre +:+ after.
Proof.
  revert s. induction pre as [|c pre IH]; intros s; simpl.
  - split; [intros _; by exists s | done].
  - destruct s as [|d s].
    + split; [done | intros [after H]; discriminate].
    + case_decide as Hcd.
      * subst d. rewrite IH. split; intros [after H]; exists after.
        -- by rewrite H.
        -- by injection H.
      * split; [done | intros [after H]; injection H; congruence].
Qed.

Lemma includes_spec s sub : includes s sub = true ↔ occurs_in sub s.
Proof.
  induction s as [|d s IH].
  - unfold occurs_in. simpl. rewrite orb_false_r, starts_with_spec. split.
    + intros [after H]. by exists "", after.
    + intros [before [after H]]. destruct before; [by exists after | discriminate].
  - cbn [includes]. rewrite orb_true_iff, IH, starts_with_spec. unfold occurs_in. split.
    + intros [[after H] | [before [after H]]].
      * by exists "", after.
      * exists (String d before), after. simpl. by rewrite H.
    + intros [before [after H]]. destruct before as [|e before].
      * left. by exists after.
      * right. simpl in H. injection H as -> H. by exists before, after.
Qed.

Lemma busygroup_occurs : occurs_in "BUSYGROUP" Streams.BUSYGROUP.
Proof. by exists "", " Consumer Group name already exists". Qed.

(** C7. When XGROUP CREATE fails with an error whose message contains
    BUSYGROUP, [initializeStream] logs that the group exists and the process
    goes on unchanged, with no exit; this is the error the broker gives when
    the group exists. Any other error is logged and the process exits with
    status 1. *)
Theorem initializeStream_busygroup (message : string) (p : Streams.process) (b : Streams.broker) :
  (occurs_in "BUSYGROUP" message →
     Streams.initializeStream (Streams.XGroupErr message) p
     = (p, [XGroupCreate Streams.STREAM_KEY Streams.CONSUMER_GROUP "0";
            LogInfo "Consumer group 'chat-group' already exists."]))
  ∧ (is_Some (Streams.groups b !! Streams.CONSUMER_GROUP) →
     ∃ busy, Streams.xgroup_create b Streams.CONSUMER_GROUP = (b, Streams.XGroupErr busy)
             ∧ occurs_in "BUSYGROUP" busy)
  ∧ (¬ occurs_in "BUSYGROUP" message →
     Streams.initializeStream (Streams.XGroupErr message) p
     = (process_exit 1 p,
        [XGroupCreate Streams.STREAM_KEY Streams.CONSUMER_GROUP "0";
         LogError "Error creating consumer group:"; ProcessExit 1])
     ∧ exited (Streams.initializeStream (Streams.XGroupErr message) p).1 = Some 1%Z).
Proof.
  split; [|split].
  - intros Hocc. apply includes_spec in Hocc. unfold Streams.initializeStream.
    by rewrite Hocc.
  - intros [gr Hgr]. exists Streams.BUSYGROUP. split; [|apply busygroup_occurs].
    unfold Streams.xgroup_create. by rewrite Hgr.
  - intros Hocc. unfold Streams.initializeStream.
    destruct (includes message "BUSYGROUP") eqn:Hinc.
    + by apply includes_spec in Hinc.
    + done.
Qed.

(** The BUSYGROUP error of a broker whose group exists, and a refused
    connection, on a consumer process. *)
Lemma initializeStream_busygroup_witness :
  Streams.initializeStream (Streams.XGroupErr Streams.BUSYGROUP) consumer_process
  = (consumer_process,
     [XGroupCreate Streams.STREAM_KEY Streams.CONSUMER_GROUP "0";
      LogInfo "Consumer group 'chat-group' already exists."])
  ∧ (∃ busy, Streams.xgroup_create group_created Streams.CONSUMER_GROUP
             = (group_created, Streams.XGroupErr busy)
             ∧ occurs_in "BUSYGROUP" busy)
  ∧ exited (Streams.initializeStream (Streams.XGroupErr "connect ECONNREFUSED")
              consumer_process).1 = Some 1%Z.
Proof.
  split; [|split].
  - apply (initializeStream_busygroup Streams.BUSYGROUP consumer_process group_created).
    apply busygroup_occurs.
  - apply (initializeStream_busygroup Streams.BUSYGROUP consumer_process group_created).
    vm_compute. eexists. reflexivity.
  - apply (initializeStream_busygroup "connect ECONNREFUSED" consumer_process group_created).
    intros Hocc. apply includes_spec in Hocc. discriminate Hocc.
Defined.

(** ** The room relay *)

Lemma adapter_join_room_emits (room id : string) (a : action) :
  a ∈ Rooms.server_side_emits (Rooms.adapter_join_room room id) →
  a = ServerSideEmit "join-room" room id ∧ room ≠ id.
Proof.
  unfold Rooms.adapter_join_room, Rooms.server_side_emits. case_decide as Hne; cbn.
  - intros Ha. apply list_elem_of_singleton in Ha. done.
  - intros Ha. by apply elem_of_nil in Ha.
Qed.

Lemma adapter_leave_room_emits (room id : string) (a : action) :
  a ∈ Rooms.server_side_emits (Rooms.adapter_leave_room room id) →
  a = ServerSideEmit "leave-room" room id ∧ room ≠ id.
Proof.
  unfold Rooms.adapter_leave_room, Rooms.server_side_emits. case_decide as Hne; cbn.
  - intros Ha. apply list_elem_of_singleton in Ha. done.
  - intros Ha. by apply elem_of_nil in Ha.
Qed.

Lemma server_side_emits_app (l1 l2 : list action) :
  Rooms.server_side_emits (l1 ++ l2) = Rooms.server_side_emits l1 ++ Rooms.server_side_emits l2.
Proof. apply filter_app. Qed.

Lemma socket_join_emits (sid : socket_id) (room : string) (r : Rooms.registry) (a : action) :
  a ∈ Rooms.server_side_emits (Rooms.socket_join sid room r).2 →
  a = ServerSideEmit "join-room" room sid ∧ room ≠ sid.
Proof.
  unfold Rooms.socket_join. case_decide; cbn.
  - intros Ha. by apply elem_of_nil in Ha.
  - apply adapter_join_room_emits.
Qed.

Lemma socket_leave_all_emits (sid : socket_id) (r : Rooms.registry) (a : action) :
  a ∈ Rooms.server_side_emits (Rooms.socket_leave_all sid r).2 →
  ∃ room, a = ServerSideEmit "leave-room" room sid ∧ room ≠ sid.
Proof.
  unfold Rooms.socket_leave_all. cbn. generalize (default [] (r !! sid)).
  intros rooms. induction rooms as [|room rooms IH]; cbn.
  - intros Ha. by apply elem_of_nil in Ha.
  - rewrite server_side_emits_app, elem_of_app. intros [Ha | Ha]; [|by apply IH].
    exists room. by apply adapter_leave_room_emits.
Qed.

(** Only a local connect or disconnect sends a notification to the peers,
    and it is about the local socket itself. *)
Lemma handle_emits (e : Rooms.event) (r : Rooms.registry) (a : action) :
  a ∈ Rooms.server_side_emits (Rooms.handle e r).2 →
  ∃ room sid,
    room ≠ sid ∧
    ((e = Rooms.Connection sid ∧ a = ServerSideEmit "join-room" room sid) ∨
     (e = Rooms.Disconnect sid ∧ a = ServerSideEmit "leave-room" room sid)).
Proof.
  destruct e as [sid | sid | room id | room id]; cbn.
  - unfold Rooms.on_connection.
    destruct (Rooms.socket_join sid sid r) as [r1 acts1] eqn:H1.
    destruct (Rooms.socket_join sid Rooms.GLOBAL_ROOM r1) as [r2 acts2] eqn:H2. cbn.
    rewrite server_side_emits_app, elem_of_app.
    change (ConsoleLog ?s :: ?l) with ([ConsoleLog s] ++ l).
    rewrite server_side_emits_app, elem_of_app, server_side_emits_app, elem_of_app.
    intros [Ha | [Ha | [Ha | Ha]]].
    + pose proof (socket_join_emits sid sid r a) as Hj. rewrite H1 in Hj.
      destruct (Hj Ha) as [_ ?]. done.
    + by apply elem_of_nil in Ha.
    + pose proof (socket_join_emits sid Rooms.GLOBAL_ROOM r1 a) as Hj. rewrite H2 in Hj.
      destruct (Hj Ha) as [-> ?]. exists Rooms.GLOBAL_ROOM, sid. auto.
    + by apply elem_of_nil in Ha.
  - unfold Rooms.on_disconnect. cbn.
    rewrite server_side_emits_app, elem_of_app. intros [Ha | Ha].
    + destruct (socket_leave_all_emits sid r a Ha) as (room & -> & ?).
      exists room, sid. auto.
    + by apply elem_of_nil in Ha.
  - intros Ha. by apply elem_of_nil in Ha.
  - intros Ha. by apply elem_of_nil in Ha.
Qed.

Lemma run_remote_only (es : list Rooms.event) (r : Rooms.registry) :
  Forall (λ e, Rooms.is_remote e = true) es →
  (Rooms.run es r).1 = r ∧ Rooms.server_side_emits (Rooms.run es r).2 = [].
Proof.
  induction 1 as [|e es He Hes IH]; [done|]. cbn.
  destruct e as [sid | sid | room id | room id]; try discriminate; cbn;
    destruct (Rooms.run es r) as [r2 acts2]; cbn in *; done.
Qed.

(** C4. A join or leave notification received from a peer only logs: the
    registry is returned as it was and the single call made is the log line,
    so no notification goes out in response. The notifications a process
    sends come from the adapter's join-room and leave-room events of its own
    sockets: whenever handling an event sends one, the event is the connect
    or disconnect of a local socket, the notification names that socket, and
    the room differs from the socket id. A run that consists of peer
    notifications alone leaves the registry unchanged and sends nothing. *)
Theorem remote_notification_only_logs (room id : string) (r : Rooms.registry) :
  Rooms.handle (Rooms.RemoteJoinRoom room id) r
    = (r, [ConsoleLog ("Socket " +:+ id +:+ " has joined room " +:+ room)])
  ∧ Rooms.handle (Rooms.RemoteLeaveRoom room id) r
    = (r, [ConsoleLog ("Socket " +:+ id +:+ " has left room " +:+ room)])
  ∧ (∀ (e : Rooms.event) (r' : Rooms.registry) (a : action),
       a ∈ Rooms.server_side_emits (Rooms.handle e r').2 →
       ∃ room' sid,
         room' ≠ sid ∧
         ((e = Rooms.Connection sid ∧ a = ServerSideEmit "join-room" room' sid) ∨
          (e = Rooms.Disconnect sid ∧ a = ServerSideEmit "leave-room" room' sid)))
  ∧ (∀ es : list Rooms.event,
       Forall (λ e, Rooms.is_remote e = true) es →
       (Rooms.run es r).1 = r ∧ Rooms.server_side_emits (Rooms.run es r).2 = []).
Proof.
  split; [done|]. split; [done|]. split.
  - apply handle_emits.
  - intros es. apply run_remote_only.
Qed.

(** A process with one local socket receives a join and a leave of a remote
    socket for the global room. *)
Lemma remote_notification_only_logs_witness :
  let r : Rooms.registry := (Rooms.on_connection "local" ∅).1 in
  let es := [Rooms.RemoteJoinRoom "global-room" "remote";
             Rooms.RemoteLeaveRoom "global-room" "remote"] in
  r !! "local" = Some ["local"; "global-room"]
  ∧ (Rooms.run es r).1 = r ∧ Rooms.server_side_emits (Rooms.run es r).2 = [].
Proof.
  intros r es. split; [reflexivity|].
  apply (remote_notification_only_logs "global-room" "remote" r). by repeat constructor.
Defined.

(** ** The sockets and the listeners of the pub/sub relay *)

Lemma remove_first_notin (x : socket_id) (l : list socket_id) :
  x ∉ l → PubSub.remove_first x l = l.
Proof.
  induction l as [|y l IH]; [done|]. cbn. rewrite not_elem_of_cons. intros [Hne Hx].
  case_decide; [done|]. by rewrite IH.
Qed.

Lemma remove_first_perm (x : socket_id) (l : list socket_id) :
  x ∈ l → l ≡ₚ x :: PubSub.remove_first x l.
Proof.
  induction l as [|y l IH]; intros Hx; [by apply elem_of_nil in Hx|]. cbn.
  case_decide as Hxy; [by subst|].
  apply elem_of_cons in Hx as [? | Hx]; [done|].
  rewrite (IH Hx) at 1. apply Permutation_swap.
Qed.

Lemma removeListener_notin (x : socket_id) (l : list socket_id) :
  x ∉ l → PubSub.removeListener x l = l.
Proof.
  intros Hx. unfold PubSub.removeListener.
  rewrite remove_first_notin by (by rewrite elem_of_reverse). apply reverse_involutive.
Qed.

Lemma removeListener_perm (x : socket_id) (l : list socket_id) :
  x ∈ l → l ≡ₚ x :: PubSub.removeListener x l.
Proof.
  intros Hx. unfold PubSub.removeListener. rewrite reverse_Permutation.
  rewrite <- remove_first_perm by (by rewrite elem_of_reverse).
  by rewrite reverse_Permutation.
Qed.

Lemma map_delete_notin (sid : socket_id) (socks : list socket_id) :
  sid ∉ socks → map_delete sid socks = socks.
Proof.
  induction socks as [|s socks IH]; [done|]. rewrite not_elem_of_cons. intros [Hne Hs].
  unfold map_delete in *. rewrite filter_cons_True by done. by rewrite IH.
Qed.

Lemma map_delete_perm (sid : socket_id) (socks : list socket_id) :
  NoDup socks → sid ∈ socks → socks ≡ₚ sid :: map_delete sid socks.
Proof.
  induction socks as [|s socks IH]; intros Hnd Hs; [by apply elem_of_nil in Hs|].
  apply NoDup_cons in Hnd as [Hs' Hnd]. unfold map_delete in *.
  destruct (decide (s = sid)) as [->|Hne].
  - rewrite filter_cons_False by naive_solver.
    fold (map_delete sid socks). by rewrite map_delete_notin.
  - rewrite filter_cons_True by done.
    apply elem_of_cons in Hs as [? | Hs]; [done|].
    rewrite (IH Hnd Hs) at 1. apply Permutation_swap.
Qed.

Lemma map_delete_NoDup (sid : socket_id) (socks : list socket_id) :
  NoDup socks → NoDup (map_delete sid socks).
Proof. apply NoDup_filter. Qed.

Section PubSubFacts.
Variable JSON_stringify : jsobject → string.
Variable JSON_parse : string → option jsobject.

Lemma close_socket_inv (sid : socket_id) (p : PubSub.process) :
  listeners_are_sockets p →
  listeners_are_sockets (close_socket (PubSub.on_disconnect JSON_stringify) sid p).1.
Proof.
  intros [Hperm Hnd]. unfold listeners_are_sockets, close_socket, PubSub.listeners in *. cbn.
  split; [|by apply map_delete_NoDup].
  destruct (decide (sid ∈ sockets p)) as [Hin | Hnin].
  - eapply (Permutation_cons_inv (a := sid)).
    rewrite <- map_delete_perm by done.
    rewrite <- removeListener_perm by (by rewrite Hperm). done.
  - rewrite map_delete_notin by done.
    rewrite removeListener_notin by (by rewrite Hperm). done.
Qed.

Lemma disconnect_all_inv (throws : socket_id → bool) (l : list socket_id) (p : PubSub.process) :
  listeners_are_sockets p →
  listeners_are_sockets
    (disconnect_all (PubSub.on_disconnect JSON_stringify) throws l p).1.1.
Proof.
  revert p. induction l as [|sid l IH]; intros p Hp; [done|]. cbn [disconnect_all].
  destruct (throws sid); [done|].
  pose proof (close_socket_inv sid p Hp) as H1.
  destruct (close_socket _ sid p) as [p1 acts1].
  specialize (IH p1 H1).
  destruct (disconnect_all _ throws l p1) as [[p2 acts2] o]. done.
Qed.

Lemma lifecycle_inv (e : lifecycle_event) (p : PubSub.process) :
  listeners_are_sockets p →
  listeners_are_sockets (lifecycle (PubSub.on_disconnect JSON_stringify) e p).1.
Proof.
  intros Hp. destruct e as [signal throws | o | pub sub]; cbn.
  - unfold gracefulShutdown. destruct (shutdownInProgress p) eqn:Hflag; [done|].
    pose proof (disconnect_all_inv throws (sockets (set_shutdownInProgress true p))
                  (set_shutdownInProgress true p) Hp) as H1.
    destruct (disconnect_all _ throws _ _) as [[p1 acts1] o]. by destruct o.
  - unfold after_close. by destruct (drain p), o.
  - unfold after_quit. by destruct (drain p), pub, sub.
Qed.

Lemma on_connection_inv (sid : socket_id) (p : PubSub.process) :
  sid ∉ sockets p →
  listeners_are_sockets p →
  listeners_are_sockets (PubSub.on_connection JSON_stringify sid p).1.
Proof.
  intros Hfresh [Hperm Hnd]. unfold listeners_are_sockets, PubSub.listeners in *. cbn.
  unfold map_set. rewrite decide_False by done. split.
  - by rewrite Hperm.
  - apply NoDup_app. split; [done|]. split; [|apply NoDup_singleton].
    intros x Hx Hx'. apply list_elem_of_singleton in Hx'. by subst.
Qed.

Lemma on_broker_message_inv (message : string) (p : PubSub.process) :
  listeners_are_sockets p →
  listeners_are_sockets (PubSub.on_broker_message JSON_parse message p).1.
Proof.
  intros Hp. unfold PubSub.on_broker_message.
  destruct (PubSub.emit_message _ _ _ _ _) as [acts o]. by destruct o.
Qed.

Lemma reachable_inv (p : PubSub.process) :
  PubSub.reachable JSON_stringify JSON_parse p → listeners_are_sockets p.
Proof.
  induction 1 as [|p e Hreach IH Hen].
  - split; [done|apply NoDup_nil_2].
  - unfold PubSub.handle, alive. destruct (exited p); [done|].
    destruct e as [sid | sid | message | e]; cbn in Hen.
    + by apply on_connection_inv.
    + by apply close_socket_inv.
    + by apply on_broker_message_inv.
    + by apply lifecycle_inv.
Qed.

End PubSubFacts.

(** C10. In every state the pub/sub relay reaches (connections carry fresh
    ids, a socket disconnects while it is connected, messages, signals and
    settled promises arrive at any time), the number of "message" listeners
    on the subscriber client is the number of connected local sockets. *)
Theorem listeners_match_sockets
    (JSON_stringify : jsobject → string) (JSON_parse : string → option jsobject)
    (p : PubSub.process) :
  PubSub.reachable JSON_stringify JSON_parse p →
  length (PubSub.listeners p) = length (sockets p).
Proof.
  intros Hreach. apply reachable_inv in Hreach as [Hperm _].
  by apply Permutation_length.
Qed.

(** Two clients connect and the first one leaves. *)
Lemma listeners_match_sockets_witness :
  let stringify := json_constant "{}" in
  let parse := json_reader ∅ in
  let p1 := (PubSub.handle stringify parse (PubSub.Connection "a") (start [])).1 in
  let p2 := (PubSub.handle stringify parse (PubSub.Connection "b") p1).1 in
  let p3 := (PubSub.handle stringify parse (PubSub.Disconnect "a") p2).1 in
  sockets p3 = ["b"] ∧ length (PubSub.listeners p3) = length (sockets p3).
Proof.
  intros stringify parse p1 p2 p3. split; [reflexivity|].
  apply (listeners_match_sockets stringify parse p3).
  apply PubSub.reachable_step; [apply PubSub.reachable_step; [apply PubSub.reachable_step|]|].
  - apply PubSub.reachable_start.
  - unfold PubSub.enabled. apply (bool_decide_unpack _). vm_compute. exact I.
  - unfold PubSub.enabled. apply (bool_decide_unpack _). vm_compute. exact I.
  - unfold PubSub.enabled. apply (bool_decide_unpack _). vm_compute. exact I.
Defined.

(** ** Fan-out of the pub/sub relay *)

Lemma copies_app (sid : socket_id) (ev : string) (payload : jsobject) (l1 l2 : list action) :
  PubSub.copies sid ev payload (l1 ++ l2)
  = PubSub.copies sid ev payload l1 + PubSub.copies sid ev payload l2.
Proof. unfold PubSub.copies. by rewrite filter_app, length_app. Qed.

Lemma copies_delivers_notin (sid : socket_id) (ev : string) (payload : jsobject)
    (socks : list socket_id) :
  sid ∉ socks →
  PubSub.copies sid ev payload (map (λ s, Deliver s ev payload) socks) = 0.
Proof.
  induction socks as [|s socks IH]; [done|]. rewrite not_elem_of_cons. intros [Hne Hs].
  unfold PubSub.copies in *. cbn [map]. rewrite filter_cons_False by congruence. by apply IH.
Qed.

Lemma copies_io_emit (sid : socket_id) (ev : string) (payload : jsobject)
    (socks : list socket_id) :
  NoDup socks → sid ∈ socks → PubSub.copies sid ev payload (io_emit socks ev payload) = 1.
Proof.
  intros Hnd Hs. unfold io_emit.
  change (IoEmit ev payload :: ?l) with ([IoEmit ev payload] ++ l).
  rewrite copies_app. unfold PubSub.copies at 1. rewrite filter_cons_False by done.
  cbn [filter list_filter length Nat.add].
  induction socks as [|s socks IH]; [by apply elem_of_nil in Hs|].
  apply NoDup_cons in Hnd as [Hs' Hnd]. cbn [map].
  change (Deliver s ev payload :: ?l) with ([Deliver s ev payload] ++ l).
  rewrite copies_app. destruct (decide (s = sid)) as [->|Hne].
  - rewrite copies_delivers_notin by done. unfold PubSub.copies.
    by rewrite filter_cons_True.
  - apply elem_of_cons in Hs as [? | Hs]; [done|]. rewrite IH by done.
    unfold PubSub.copies. rewrite filter_cons_False by congruence. done.
Qed.

Section FanOut.
Variable JSON_stringify : jsobject → string.
Variable JSON_parse : string → option jsobject.

(** One broker delivery runs every listener, and every listener sends one
    copy to every local socket. *)
Lemma emit_message_copies (ls socks : list socket_id) (message : string)
    (payload : jsobject) (sid : socket_id) :
  JSON_parse message = Some payload → NoDup socks → sid ∈ socks →
  ∃ acts, PubSub.emit_message JSON_parse ls socks PubSub.REDIS_CHANNEL message
          = (acts, Returned)
          ∧ PubSub.copies sid "new-message" payload acts = length ls.
Proof.
  intros Hparse Hnd Hs. induction ls as [|l ls (acts & Hacts & Hcopies)].
  - by exists [].
  - cbn [PubSub.emit_message]. unfold PubSub.onMessage.
    rewrite decide_True by done. rewrite Hparse, Hacts.
    eexists. split; [reflexivity|].
    rewrite copies_app, Hcopies.
    change (ConsoleLog ?s :: ?l1) with ([ConsoleLog s] ++ l1).
    rewrite copies_app, copies_io_emit by done. done.
Qed.

Lemma fanout_copies (p : PubSub.process) (message : string) (payload : jsobject)
    (sid : socket_id) :
  PubSub.reachable JSON_stringify JSON_parse p → exited p = None →
  JSON_parse message = Some payload → sid ∈ sockets p →
  PubSub.copies sid "new-message" payload
    (PubSub.handle JSON_stringify JSON_parse
       (PubSub.Message message) p).2
  = length (sockets p).
Proof.
  intros Hreach Halive Hparse Hs.
  destruct (reachable_inv _ _ _ Hreach) as [Hperm Hnd].
  unfold PubSub.handle, alive. rewrite Halive. unfold PubSub.on_broker_message.
  destruct (emit_message_copies (PubSub.listeners p) (sockets p) message payload sid
              Hparse Hnd Hs) as (acts & -> & Hcopies).
  cbn [snd]. rewrite Hcopies. by apply Permutation_length.
Qed.

End FanOut.

(** C1, as the code has it: with the two local connections "a" and "b"
    registered, one delivery of a message by the broker on "chat-messages"
    sends two copies of its payload to "a" and two copies to "b": each
    connection added a listener of its own, and each listener emits to every
    local socket. *)
Theorem fanout_two_connections
    (JSON_stringify : jsobject → string) (payload : jsobject) (message : string) :
  let parse := json_reader payload in
  let p1 := (PubSub.handle JSON_stringify parse (PubSub.Connection "a") (start [])).1 in
  let p2 := (PubSub.handle JSON_stringify parse (PubSub.Connection "b") p1).1 in
  let acts :=
    (PubSub.handle JSON_stringify parse (PubSub.Message message) p2).2 in
  sockets p2 = ["a"; "b"]
  ∧ PubSub.copies "a" "new-message" payload acts = 2
  ∧ PubSub.copies "b" "new-message" payload acts = 2.
Proof.
  intros parse p1 p2 acts.
  assert (PubSub.reachable JSON_stringify parse p2) as Hreach.
  { apply PubSub.reachable_step; [apply PubSub.reachable_step|].
    - apply PubSub.reachable_start.
    - unfold PubSub.enabled. apply (bool_decide_unpack _). vm_compute. exact I.
    - unfold PubSub.enabled. apply (bool_decide_unpack _). vm_compute. exact I. }
  split; [reflexivity|]. split.
  - apply (fanout_copies JSON_stringify parse p2 message payload "a" Hreach);
      [reflexivity | reflexivity | apply (bool_decide_unpack _); vm_compute; exact I].
  - apply (fanout_copies JSON_stringify parse p2 message payload "b" Hreach);
      [reflexivity | reflexivity | apply (bool_decide_unpack _); vm_compute; exact I].
Qed.

(** ** Shutdown *)

Lemma drain_actions_app (l1 l2 : list action) :
  drain_actions (l1 ++ l2) = drain_actions l1 ++ drain_actions l2.
Proof. apply filter_app. Qed.

Lemma exit_codes_app (l1 l2 : list action) :
  exit_codes (l1 ++ l2) = exit_codes l1 ++ exit_codes l2.
Proof. apply omap_app. Qed.

Section ShutdownFacts.
Context {V : Type}.
Variable on_disconnect : socket_id → V → V * list action.

(** The "disconnect" listener of a socket neither drains nor exits. *)
Hypothesis on_disconnect_quiet :
  ∀ sid v, drain_actions (on_disconnect sid v).2 = [] ∧ exit_codes (on_disconnect sid v).2 = [].

Lemma gracefulShutdown_again (signal : string) (throws : socket_id → bool) (p : proc V) :
  shutdownInProgress p = true →
  gracefulShutdown on_disconnect signal throws p
  = (p, [LogWarn ("Shutdown already in progress. Ignoring signal: " +:+ signal)]).
Proof. intros Hflag. unfold gracefulShutdown. by rewrite Hflag. Qed.

Lemma close_socket_frame (sid : socket_id) (p : proc V) :
  let r := close_socket on_disconnect sid p in
  shutdownInProgress r.1 = shutdownInProgress p ∧ drain r.1 = drain p
  ∧ exited r.1 = exited p
  ∧ drain_actions r.2 = [] ∧ exit_codes r.2 = [].
Proof.
  unfold close_socket. destruct (on_disconnect_quiet sid (app p)) as [Hd He].
  destruct (on_disconnect sid (app p)) as [v acts]. cbn in *. done.
Qed.

Lemma disconnect_all_frame (throws : socket_id → bool) (l : list socket_id) (p : proc V) :
  let r := disconnect_all on_disconnect throws l p in
  shutdownInProgress r.1.1 = shutdownInProgress p ∧ drain r.1.1 = drain p
  ∧ exited r.1.1 = exited p ∧ exit_codes r.1.2 = [].
Proof.
  revert p. induction l as [|sid l IH]; intros p; [done|]. cbn [disconnect_all].
  destruct (throws sid); [done|].
  pose proof (close_socket_frame sid p) as (H1 & H2 & H3 & _ & H5).
  destruct (close_socket on_disconnect sid p) as [p1 acts1].
  pose proof (IH p1) as (I1 & I2 & I3 & I4).
  destruct (disconnect_all on_disconnect throws l p1) as [[p2 acts2] o]. cbn [fst snd] in *.
  change (exit_codes (SocketDisconnect sid :: acts1 ++ acts2))
    with (exit_codes (acts1 ++ acts2)).
  rewrite exit_codes_app, H5, I4. repeat split; congruence.
Qed.

Lemma disconnect_all_returns (throws : socket_id → bool) (l : list socket_id) (p : proc V) :
  Forall (λ s, throws s = false) l →
  (disconnect_all on_disconnect throws l p).2 = Returned
  ∧ drain_actions (disconnect_all on_disconnect throws l p).1.2 = map SocketDisconnect l.
Proof.
  intros Hl. revert p. induction Hl as [|sid l Hsid Hl IH]; intros p; [done|].
  cbn [disconnect_all]. rewrite Hsid.
  pose proof (close_socket_frame sid p) as (_ & _ & _ & H4 & _).
  destruct (close_socket on_disconnect sid p) as [p1 acts1].
  pose proof (IH p1) as [I1 I2].
  destruct (disconnect_all on_disconnect throws l p1) as [[p2 acts2] o]. cbn [fst snd] in *.
  split; [done|].
  change (SocketDisconnect sid :: ?l) with ([SocketDisconnect sid] ++ l).
  rewrite !drain_actions_app, H4, I2. done.
Qed.

Lemma disconnect_all_throws (throws : socket_id → bool) (l : list socket_id) (p : proc V) :
  Exists (λ s, throws s = true) l →
  (disconnect_all on_disconnect throws l p).2 = Threw.
Proof.
  intros Hl. revert p. induction l as [|sid l IH]; intros p; [by apply Exists_nil in Hl|].
  cbn [disconnect_all]. destruct (throws sid) eqn:Hsid; [done|].
  apply Exists_cons in Hl as [Hl | Hl]; [congruence|].
  destruct (close_socket on_disconnect sid p) as [p1 acts1].
  pose proof (IH Hl p1) as I1.
  destruct (disconnect_all on_disconnect throws l p1) as [[p2 acts2] o]. done.
Qed.

Lemma run_lifecycle_app (es1 es2 : list lifecycle_event) (p : proc V) :
  run_lifecycle on_disconnect (es1 ++ es2) p
  = let '(p1, acts1) := run_lifecycle on_disconnect es1 p in
    let '(p2, acts2) := run_lifecycle on_disconnect es2 p1 in
    (p2, acts1 ++ acts2).
Proof.
  revert p. induction es1 as [|e es1 IH]; intros p; cbn.
  - by destruct (run_lifecycle on_disconnect es2 p).
  - destruct (alive (lifecycle on_disconnect e) p) as [p1 acts1]. rewrite IH.
    destruct (run_lifecycle on_disconnect es1 p1) as [p2 acts2].
    destruct (run_lifecycle on_disconnect es2 p2) as [p3 acts3]. by rewrite app_assoc.
Qed.

Lemma run_lifecycle_exited (es : list lifecycle_event) (p : proc V) :
  is_Some (exited p) → run_lifecycle on_disconnect es p = (p, []).
Proof.
  intros [c Hc]. induction es as [|e es IH]; [done|]. cbn.
  unfold alive. by rewrite Hc, IH.
Qed.

(** Signals that arrive once the flag is set change nothing and call
    nothing but the logger. *)
Lemma run_signals_in_progress (l : list (string * (socket_id → bool))) (p : proc V) :
  shutdownInProgress p = true →
  (run_lifecycle on_disconnect (signals l) p).1 = p
  ∧ drain_actions (run_lifecycle on_disconnect (signals l) p).2 = []
  ∧ exit_codes (run_lifecycle on_disconnect (signals l) p).2 = [].
Proof.
  intros Hflag. induction l as [|[signal throws] l IH]; [done|].
  unfold signals in *. cbn [map run_lifecycle fst snd].
  unfold alive. destruct (exited p) eqn:Hex.
  - destruct (run_lifecycle on_disconnect _ p) as [p2 acts2]. done.
  - cbn [lifecycle]. rewrite gracefulShutdown_again by done.
    destruct (run_lifecycle on_disconnect _ p) as [p2 acts2]. done.
Qed.

Lemma run_lifecycle_cons (e : lifecycle_event) (es : list lifecycle_event) (p : proc V) :
  run_lifecycle on_disconnect (e :: es) p
  = ((run_lifecycle on_disconnect es (alive (lifecycle on_disconnect e) p).1).1,
     (alive (lifecycle on_disconnect e) p).2
     ++ (run_lifecycle on_disconnect es (alive (lifecycle on_disconnect e) p).1).2).
Proof.
  cbn [run_lifecycle]. destruct (alive (lifecycle on_disconnect e) p) as [p1 acts1].
  cbn [fst snd]. by destruct (run_lifecycle on_disconnect es p1).
Qed.

Lemma alive_running (handler : proc V → proc V * list action) (p : proc V) :
  exited p = None → alive handler p = handler p.
Proof. intros Halive. unfold alive. by rewrite Halive. Qed.

Lemma run_signals_then (l : list (string * (socket_id → bool)))
    (es : list lifecycle_event) (p : proc V) :
  shutdownInProgress p = true →
  ∃ warns,
    run_lifecycle on_disconnect (signals l ++ es) p
    = ((run_lifecycle on_disconnect es p).1, warns ++ (run_lifecycle on_disconnect es p).2)
    ∧ drain_actions warns = [] ∧ exit_codes warns = [].
Proof.
  intros Hflag. rewrite run_lifecycle_app.
  destruct (run_signals_in_progress l p Hflag) as (H1 & H2 & H3).
  destruct (run_lifecycle on_disconnect (signals l) p) as [p1 warns]. cbn [fst snd] in *.
  subst p1. exists warns. by destruct (run_lifecycle on_disconnect es p).
Qed.

Lemma first_signal_drains (signal : string) (throws : socket_id → bool) (p : proc V) :
  shutdownInProgress p = false → Forall (λ s, throws s = false) (sockets p) →
  let r := gracefulShutdown on_disconnect signal throws p in
  shutdownInProgress r.1 = true ∧ drain r.1 = AwaitClose ∧ exited r.1 = exited p
  ∧ drain_actions r.2 = map SocketDisconnect (sockets p) ++ [FastifyClose]
  ∧ exit_codes r.2 = [].
Proof.
  intros Hflag Hok. unfold gracefulShutdown. rewrite Hflag.
  pose proof (disconnect_all_frame throws (sockets (set_shutdownInProgress true p))
                (set_shutdownInProgress true p)) as (F1 & F2 & F3 & F4).
  pose proof (disconnect_all_returns throws (sockets (set_shutdownInProgress true p))
                (set_shutdownInProgress true p) Hok) as [R1 R2].
  destruct (disconnect_all on_disconnect throws _ _) as [[p1 acts1] o].
  cbn [fst snd] in *. subst o. cbn [fst snd].
  repeat split; try done.
  - change (LogInfo ?s :: ?l) with ([LogInfo s] ++ l) at 1.
    rewrite !drain_actions_app, R2. done.
  - change (LogInfo ?s :: ?l) with ([LogInfo s] ++ l) at 1.
    rewrite !exit_codes_app, F4. done.
Qed.

Lemma first_signal_throws (signal : string) (throws : socket_id → bool) (p : proc V) :
  shutdownInProgress p = false → Exists (λ s, throws s = true) (sockets p) →
  let r := gracefulShutdown on_disconnect signal throws p in
  shutdownInProgress r.1 = true ∧ exited r.1 = Some 1%Z ∧ exit_codes r.2 = [1%Z].
Proof.
  intros Hflag Hthrows. unfold gracefulShutdown. rewrite Hflag.
  pose proof (disconnect_all_frame throws (sockets (set_shutdownInProgress true p))
                (set_shutdownInProgress true p)) as (F1 & F2 & F3 & F4).
  pose proof (disconnect_all_throws throws (sockets (set_shutdownInProgress true p))
                (set_shutdownInProgress true p) Hthrows) as R1.
  destruct (disconnect_all on_disconnect throws _ _) as [[p1 acts1] o].
  cbn [fst snd] in *. subst o. cbn [fst snd].
  repeat split; try done.
  change (LogInfo ?s :: ?l) with ([LogInfo s] ++ l) at 1.
  rewrite !exit_codes_app, F4. done.
Qed.

(** The rest of a drain, from the state the first signal leaves. *)
Lemma drain_completes (again1 again2 again3 : list (string * (socket_id → bool)))
    (close pub sub : outcome) (p : proc V) :
  shutdownInProgress p = true → drain p = AwaitClose → exited p = None →
  let r := run_lifecycle on_disconnect
             (signals again1 ++ CloseSettled close ::
              signals again2 ++ QuitSettled pub sub :: signals again3) p in
  match close, pub, sub with
  | Returned, Returned, Returned =>
      drain_actions r.2 = [QuitPub; QuitSub] ∧ exit_codes r.2 = [0%Z]
      ∧ exited r.1 = Some 0%Z
  | _, _, _ => exit_codes r.2 = [1%Z] ∧ exited r.1 = Some 1%Z
  end.
Proof.
  intros Hflag Hdrain Halive r. subst r.
  destruct (run_signals_then again1
              (CloseSettled close :: signals again2 ++ QuitSettled pub sub :: signals again3)
              p Hflag) as (w1 & -> & Hw1 & Hw1').
  rewrite run_lifecycle_cons, alive_running by done. cbn [lifecycle fst snd].
  unfold after_close. rewrite Hdrain. destruct close; cbn [fst snd].
  - set (p2 := set_drain AwaitQuit p).
    destruct (run_signals_then again2 (QuitSettled pub sub :: signals again3) p2 Hflag)
      as (w2 & -> & Hw2 & Hw2').
    rewrite run_lifecycle_cons, alive_running by done. cbn [lifecycle fst snd].
    unfold after_quit. cbn [drain p2 set_drain].
    destruct pub, sub; cbn [fst snd];
      rewrite run_lifecycle_exited by (by eexists); cbn [fst snd];
      rewrite ?drain_actions_app, ?exit_codes_app, ?Hw1, ?Hw1', ?Hw2, ?Hw2'; done.
  - rewrite run_lifecycle_exited by (by eexists). cbn [fst snd].
    rewrite ?exit_codes_app, ?Hw1'. done.
Qed.

(** C5. A termination signal that arrives while the flag is set only logs a
    warning: the state is returned as it was and nothing is drained. The
    first signal sets the flag. So in a run where further signals arrive at
    any point of the drain, the drain calls are those of one full drain
    (every socket disconnected, the server closed, both broker clients quit),
    and the process exits once: with status 0 when every call of the drain
    returns, with status 1 when one of them throws. *)
Theorem shutdown_runs_once (p : proc V) (signal : string) (throws : socket_id → bool)
    (again1 again2 again3 : list (string * (socket_id → bool)))
    (close pub sub : outcome) :
  let r := run_lifecycle on_disconnect
             (Signal signal throws :: signals again1 ++ CloseSettled close ::
              signals again2 ++ QuitSettled pub sub :: signals again3) p in
  (shutdownInProgress p = true →
     gracefulShutdown on_disconnect signal throws p
     = (p, [LogWarn ("Shutdown already in progress. Ignoring signal: " +:+ signal)]))
  ∧ (shutdownInProgress p = false → exited p = None →
     shutdownInProgress (gracefulShutdown on_disconnect signal throws p).1 = true
     ∧ (Forall (λ s, throws s = false) (sockets p) →
        close = Returned → pub = Returned → sub = Returned →
        drain_actions r.2 = full_drain (sockets p) ∧ exit_codes r.2 = [0%Z]
        ∧ exited r.1 = Some 0%Z)
     ∧ (Exists (λ s, throws s = true) (sockets p) ∨ close = Threw ∨ pub = Threw
        ∨ sub = Threw →
        exit_codes r.2 = [1%Z] ∧ exited r.1 = Some 1%Z)).
Proof.
  intros r. split; [apply gracefulShutdown_again|]. intros Hflag Halive.
  subst r. rewrite run_lifecycle_cons, alive_running by done. cbn [lifecycle fst snd].
  destruct (decide (Exists (λ s, throws s = true) (sockets p))) as [Hthrows | Hok].
  - pose proof (first_signal_throws signal throws p Hflag Hthrows) as (T1 & T2 & T3).
    split; [done|]. split.
    + intros Hall. exfalso. apply Exists_exists in Hthrows as (s & Hs & Hs').
      rewrite Forall_forall in Hall. specialize (Hall s Hs). congruence.
    + intros _. rewrite run_lifecycle_exited by (by eexists).
      cbn [fst snd]. by rewrite app_nil_r.
  - assert (Forall (λ s, throws s = false) (sockets p)) as Hall.
    { apply Forall_forall. intros s Hs. destruct (throws s) eqn:Hts; [|done].
      exfalso. apply Hok, Exists_exists. eauto. }
    pose proof (first_signal_drains signal throws p Hflag Hall) as (D1 & D2 & D3 & D4 & D5).
    split; [done|]. rewrite Halive in D3.
    pose proof (drain_completes again1 again2 again3 close pub sub _ D1 D2 D3) as Hrest.
    cbn zeta in Hrest.
    rewrite drain_actions_app, exit_codes_app, D4, D5. split.
    + intros _ -> -> ->. destruct Hrest as (R1 & R2 & R3). rewrite R1, R2.
      unfold full_drain. by rewrite <- app_assoc.
    + intros [? | Hfail]; [done|].
      destruct close, pub, sub; try done; destruct Hfail as [? | [? | ?]]; done.
Qed.

End ShutdownFacts.

(** The "disconnect" listeners of both relays publish a notice and log. *)
Lemma pubsub_on_disconnect_quiet (JSON_stringify : jsobject → string)
    (sid : socket_id) (ls : list socket_id) :
  drain_actions (PubSub.on_disconnect JSON_stringify sid ls).2 = []
  ∧ exit_codes (PubSub.on_disconnect JSON_stringify sid ls).2 = [].
Proof. done. Qed.

Lemma streams_on_disconnect_quiet (sid : socket_id) (v : Streams.app_state) :
  drain_actions (Streams.on_disconnect sid v).2 = []
  ∧ exit_codes (Streams.on_disconnect sid v).2 = [].
Proof. done. Qed.

(** SIGINT on a pub/sub process with two sockets, SIGTERM while the server
    closes, SIGINT again while the broker clients quit. *)
Lemma shutdown_runs_once_witness :
  let p : PubSub.process := Proc ["a"; "b"] ["a"; "b"] false NotDraining None in
  let r := run_lifecycle (PubSub.on_disconnect (json_constant "{}"))
             (Signal "SIGINT" (λ _, false) :: signals [("SIGTERM", λ _, false)] ++
              CloseSettled Returned :: signals [("SIGINT", λ _, false)] ++
              QuitSettled Returned Returned :: signals []) p in
  drain_actions r.2 = full_drain ["a"; "b"] ∧ exit_codes r.2 = [0%Z]
  ∧ exited r.1 = Some 0%Z.
Proof.
  intros p.
  destruct (shutdown_runs_once (PubSub.on_disconnect (json_constant "{}"))
              (pubsub_on_disconnect_quiet (json_constant "{}"))
              p "SIGINT" (λ _, false) [("SIGTERM", λ _, false)] [("SIGINT", λ _, false)] []
              Returned Returned Returned) as [_ Hfirst].
  destruct (Hfirst eq_refl eq_refl) as (_ & Hdrain & _).
  apply Hdrain; [|reflexivity..]. repeat constructor.
Defined.

(** ** Fan-out before acknowledgment in the stream relay *)

Lemma fanout_of_no_ack (socks : list socket_id) (e : entry) (i id : nat) (a : action) :
  fanout_of socks e !! i = Some a → ¬ is_ack id a.
Proof.
  unfold fanout_of, io_emit. intros Hi [-> | ->].
  - destruct i as [|[|i]]; cbn in Hi; [done..|].
    apply list_lookup_fmap_Some in Hi as (s & ? & _). done.
  - destruct i as [|[|i]]; cbn in Hi; [done..|].
    apply list_lookup_fmap_Some in Hi as (s & ? & _). done.
Qed.

Lemma fanout_of_emit (socks : list socket_id) (e : entry) :
  fanout_of socks e !! 1 = Some (IoEmit "new-message" (Streams.decode e.2))
  ∧ 1 < length (fanout_of socks e).
Proof. split; [done|]. cbn. lia. Qed.

Lemma process_messages_unfold (env : Streams.failures) (it k : nat)
    (socks : list socket_id) (e : entry) (rest : list entry) (b : Streams.broker) :
  Streams.process_messages env it k socks (e :: rest) b
  = if Streams.emit_fails env it k then
      (b, [LogInfo ("Processing message ID " +:+ pretty e.1 +:+ ":");
           IoEmitThrew "new-message" (Streams.decode e.2)], Threw)
    else if Streams.ack_fails env it k then
      (b, fanout_of socks e ++ [XAckThrew Streams.STREAM_KEY Streams.CONSUMER_GROUP e.1],
       Threw)
    else
      let r := Streams.process_messages env it (S k) socks rest
                 (Streams.xack b Streams.CONSUMER_GROUP e.1) in
      (r.1.1,
       fanout_of socks e ++ XAck Streams.STREAM_KEY Streams.CONSUMER_GROUP e.1 :: r.1.2,
       r.2).
Proof.
  destruct e as [id fields]. cbn [Streams.process_messages fst snd].
  destruct (Streams.emit_fails env it k); [done|].
  destruct (Streams.ack_fails env it k); [done|].
  by destruct (Streams.process_messages env it (S k) socks rest _) as [[b' acts] o].
Qed.

(** Every acknowledgment call comes after the fan-out of its entry returned. *)
Lemma ack_after_emit (env : Streams.failures) (it k : nat) (socks : list socket_id)
    (messages : list entry) (b : Streams.broker) (i id : nat) (a : action) :
  (Streams.process_messages env it k socks messages b).1.2 !! i = Some a →
  is_ack id a →
  ∃ fields j,
    (id, fields) ∈ messages ∧ j < i ∧
    (Streams.process_messages env it k socks messages b).1.2 !! j
    = Some (IoEmit "new-message" (Streams.decode fields)).
Proof.
  revert k b i. induction messages as [|e rest IH]; intros k b i Hi Hack; [done|].
  rewrite process_messages_unfold in *.
  destruct (fanout_of_emit socks e) as [Hemit Hlen].
  destruct (Streams.emit_fails env it k).
  - cbn [fst snd] in Hi. destruct Hack as [-> | ->]; by destruct i as [|[|i]].
  - destruct (Streams.ack_fails env it k); cbn [fst snd] in *.
    + apply lookup_app_Some in Hi as [Hi | [Hge Hi]].
      * by apply fanout_of_no_ack with (id := id) in Hi.
      * exists e.2, 1. split; [|split; [lia|by apply lookup_app_l_Some]].
        apply list_lookup_singleton_Some in Hi as [_ <-].
        destruct Hack as [? | [= <-]]; [done|]. destruct e; apply list_elem_of_here.
    + apply lookup_app_Some in Hi as [Hi | [Hge Hi]].
      * by apply fanout_of_no_ack with (id := id) in Hi.
      * destruct (i - length (fanout_of socks e)) as [|i'] eqn:Hi'; cbn in Hi.
        -- exists e.2, 1. split; [|split; [lia|by apply lookup_app_l_Some]].
           injection Hi as <-. destruct Hack as [[= <-] | ?]; [|done].
           destruct e; apply list_elem_of_here.
        -- destruct (IH _ _ _ Hi Hack) as (fields & j & Hin & Hlt & Hj).
           exists fields, (length (fanout_of socks e) + S j).
           split; [by apply list_elem_of_further|]. split; [lia|].
           apply lookup_app_Some. right. split; [lia|].
           by replace (length (fanout_of socks e) + S j - length (fanout_of socks e))
             with (S j) by lia.
Qed.

Lemma acked_ids_app (l1 l2 : list action) :
  Streams.acked_ids (l1 ++ l2) = Streams.acked_ids l1 ++ Streams.acked_ids l2.
Proof. apply omap_app. Qed.

Lemma acked_ids_fanout_of (socks : list socket_id) (e : entry) :
  Streams.acked_ids (fanout_of socks e) = [].
Proof.
  unfold fanout_of, io_emit, Streams.acked_ids. cbn.
  induction socks as [|s socks IH]; [done|]. cbn. apply IH.
Qed.

(** When the fan-out of the [i]-th entry of a batch throws, the
    acknowledgment calls of the batch are those of its first [n] entries, for
    some [n ≤ i], and the exception leaves the loop. *)
Lemma acked_prefix (env : Streams.failures) (it k : nat) (socks : list socket_id)
    (messages : list entry) (b : Streams.broker) (i : nat) :
  i < length messages → Streams.emit_fails env it (k + i) = true →
  (Streams.process_messages env it k socks messages b).2 = Threw
  ∧ ∃ n, n ≤ i ∧
      Streams.acked_ids (Streams.process_messages env it k socks messages b).1.2
      = (take n messages).*1.
Proof.
  revert k b i. induction messages as [|e rest IH]; intros k b i Hi Hfail; [cbn in Hi; lia|].
  rewrite process_messages_unfold.
  destruct (Streams.emit_fails env it k) eqn:Hemit.
  - split; [done|]. exists 0. split; [lia|done].
  - destruct i as [|i]; [rewrite Nat.add_0_r in Hfail; congruence|].
    destruct (Streams.ack_fails env it k); cbn [fst snd].
    + split; [done|]. exists 1. split; [lia|].
      rewrite acked_ids_app, acked_ids_fanout_of. done.
    + cbn in Hi. replace (k + S i) with (S k + i) in Hfail by lia.
      destruct (IH (S k) (Streams.xack b Streams.CONSUMER_GROUP e.1) i ltac:(lia) Hfail)
        as [Hthrew (n & Hn & Hacked)].
      split; [done|]. exists (S n). split; [lia|].
      rewrite acked_ids_app, acked_ids_fanout_of.
      change (Streams.acked_ids (XAck ?key ?g ?id :: ?l)) with (id :: Streams.acked_ids l).
      by rewrite Hacked.
Qed.

(** The calls of a batch up to an entry that is reached: every entry before
    it was fanned out and then acknowledged, in the order of the batch; the
    entry itself is fanned out, and the call that follows is its
    acknowledgment. *)
Lemma process_messages_upto (env : Streams.failures) (it k : nat) (socks : list socket_id)
    (messages : list entry) (b : Streams.broker) (i : nat) (e : entry) :
  messages !! i = Some e →
  (∀ j, j < i →
        Streams.emit_fails env it (k + j) = false ∧ Streams.ack_fails env it (k + j) = false) →
  Streams.emit_fails env it (k + i) = false →
  ∃ rest,
    (Streams.process_messages env it k socks messages b).1.2
    = flat_map (handled socks) (take i messages) ++ fanout_of socks e
      ++ (if Streams.ack_fails env it (k + i)
          then XAckThrew Streams.STREAM_KEY Streams.CONSUMER_GROUP e.1
          else XAck Streams.STREAM_KEY Streams.CONSUMER_GROUP e.1) :: rest.
Proof.
  revert k b i. induction messages as [|e0 rest0 IH]; intros k b i Hi Hok Hemit; [done|].
  rewrite process_messages_unfold. destruct i as [|i].
  - injection Hi as ->. rewrite Nat.add_0_r in Hemit |- *. rewrite Hemit.
    destruct (Streams.ack_fails env it k); cbn [fst snd take flat_map app]; by eexists.
  - cbn [lookup list_lookup] in Hi.
    destruct (Hok 0 ltac:(lia)) as [He0 Ha0]. rewrite Nat.add_0_r in He0, Ha0.
    rewrite He0, Ha0. cbn [fst snd].
    destruct (IH (S k) (Streams.xack b Streams.CONSUMER_GROUP e0.1) i Hi) as [rest Hrest].
    + intros j Hj. replace (S k + j) with (k + S j) by lia. apply Hok. lia.
    + by replace (S k + i) with (k + S i) by lia.
    + exists rest. rewrite Hrest. replace (S k + i) with (k + S i) by lia.
      cbn [take flat_map]. unfold handled at 2. by rewrite <- !app_assoc.
Qed.

(** A batch in which no call fails: every entry is fanned out and then
    acknowledged, in the order of the batch, and the loop over the batch
    returns. *)
Lemma process_messages_all (env : Streams.failures) (it k : nat) (socks : list socket_id)
    (messages : list entry) (b : Streams.broker) :
  (∀ j, j < length messages →
        Streams.emit_fails env it (k + j) = false ∧ Streams.ack_fails env it (k + j) = false) →
  (Streams.process_messages env it k socks messages b).1.2 = flat_map (handled socks) messages
  ∧ (Streams.process_messages env it k socks messages b).2 = Returned.
Proof.
  revert k b. induction messages as [|e rest IH]; intros k b Hok; [done|].
  rewrite process_messages_unfold.
  destruct (Hok 0 ltac:(cbn; lia)) as [He Ha]. rewrite Nat.add_0_r in He, Ha.
  rewrite He, Ha. cbn [fst snd].
  destruct (IH (S k) (Streams.xack b Streams.CONSUMER_GROUP e.1)) as [-> ->].
  - intros j Hj. replace (S k + j) with (k + S j) by lia. apply Hok. cbn. lia.
  - split; [|done]. cbn [flat_map]. unfold handled at 2. by rewrite <- app_assoc.
Qed.

(** C3. The loop over a batch fans every entry out to the local sockets and
    then acknowledges it:

    - when no call of the batch fails, the calls of the batch are, entry by
      entry in the order of the batch, the fan-out of the entry followed by
      its acknowledgment, and the loop returns;
    - in general every entry that is reached (no call failed for the entries
      before it) and whose fan-out does not throw is fanned out to every
      local socket, after the entries before it were fanned out and
      acknowledged, and the call that follows its fan-out is its
      acknowledgment;
    - every acknowledgment call for an entry is made after [io.emit] returned
      for that entry;
    - when the fan-out of the [i]-th entry throws, the exception leaves the
      loop over the batch and no acknowledgment is issued for that entry or
      for any later entry of the batch. *)
Theorem ack_only_after_fanout (env : Streams.failures) (it : nat)
    (socks : list socket_id) (messages : list entry) (b : Streams.broker) :
  let r := Streams.process_messages env it 0 socks messages b in
  ((∀ j, j < length messages →
         Streams.emit_fails env it j = false ∧ Streams.ack_fails env it j = false) →
   r.1.2 = flat_map (handled socks) messages ∧ r.2 = Returned)
  ∧ (∀ (i : nat) (e : entry),
       messages !! i = Some e →
       (∀ j, j < i →
             Streams.emit_fails env it j = false ∧ Streams.ack_fails env it j = false) →
       Streams.emit_fails env it i = false →
       ∃ a rest,
         r.1.2 = flat_map (handled socks) (take i messages)
                 ++ fanout_of socks e ++ a :: rest
         ∧ is_ack e.1 a)
  ∧ (∀ (i id : nat) (a : action),
       r.1.2 !! i = Some a → is_ack id a →
       ∃ fields j, (id, fields) ∈ messages ∧ j < i ∧
                   r.1.2 !! j = Some (IoEmit "new-message" (Streams.decode fields)))
  ∧ (∀ i : nat,
       i < length messages → Streams.emit_fails env it i = true → NoDup messages.*1 →
       r.2 = Threw
       ∧ ∀ (j : nat) (e : entry),
           i ≤ j → messages !! j = Some e → e.1 ∉ Streams.acked_ids r.1.2).
Proof.
  intros r. split; [|split; [|split]].
  - intros Hok. by apply process_messages_all.
  - intros i e Hi Hok Hemit.
    destruct (process_messages_upto env it 0 socks messages b i e Hi Hok Hemit)
      as [rest Hrest].
    eexists _, rest. split; [exact Hrest|].
    unfold is_ack. cbn [Nat.add]. destruct (Streams.ack_fails env it i); auto.
  - intros i id a. apply ack_after_emit.
  - intros i Hi Hfail Hnd.
    destruct (acked_prefix env it 0 socks messages b i Hi Hfail) as [Hthrew (n & Hn & Hacked)].
    split; [done|]. intros j e Hj He. subst r. rewrite Hacked.
    rewrite fmap_take. intros Hin. apply elem_of_take in Hin as (j' & Hj' & Hlt).
    assert (messages.*1 !! j = Some e.1) as Hj1
      by (apply list_lookup_fmap_Some; by exists e).
    pose proof (NoDup_lookup _ _ _ _ Hnd Hj' Hj1). lia.
Qed.

(** A batch of three entries whose second fan-out throws: the first entry is
    fanned out to the socket and acknowledged, the second and the third are
    not acknowledged. *)
Lemma ack_only_after_fanout_witness :
  let messages := [(1, ["id"; "a"]); (2, ["id"; "b"]); (3, ["id"; "c"])] in
  let r := Streams.process_messages fails_on_second 0 0 ["s"] messages
             Streams.empty_broker in
  (∃ a rest, r.1.2 = fanout_of ["s"] (1, ["id"; "a"]) ++ a :: rest ∧ is_ack 1 a)
  ∧ r.2 = Threw ∧ (2 ∉ Streams.acked_ids r.1.2) ∧ (3 ∉ Streams.acked_ids r.1.2).
Proof.
  intros messages r.
  destruct (ack_only_after_fanout fails_on_second 0 ["s"] messages Streams.empty_broker)
    as (_ & Hreached & _ & Hthrow).
  split.
  - apply (Hreached 0 (1, ["id"; "a"])); [reflexivity | intros j Hj; lia | reflexivity].
  - destruct (Hthrow 1) as [Hthrew Hacked].
    + cbn. lia.
    + reflexivity.
    + apply (bool_decide_unpack _). vm_compute. exact I.
    + split; [exact Hthrew|]. split.
      * apply (Hacked 1 (2, ["id"; "b"])); [lia | reflexivity].
      * apply (Hacked 2 (3, ["id"; "c"])); [lia | reflexivity].
Defined.

(** ** The consumer loop: errors and termination *)

(** The shape of the trace of one batch: no error log, no exit and no timer;
    a call that throws is the last one, and then the batch ends by the
    exception. *)
Lemma process_messages_trace (env : Streams.failures) (it k : nat) (socks : list socket_id)
    (messages : list entry) (b : Streams.broker) :
  let r := Streams.process_messages env it k socks messages b in
  Forall (λ a, is_exit_or_wait a = false ∧ a ≠ Streams.consume_error) r.1.2
  ∧ (∀ i a, r.1.2 !! i = Some a → is_throw a = true → S i = length r.1.2 ∧ r.2 = Threw).
Proof.
  revert k b. induction messages as [|e rest IH]; intros k b.
  { split; [constructor | by intros []]. }
  cbn zeta. rewrite process_messages_unfold.
  assert (Forall (λ a, is_exit_or_wait a = false ∧ a ≠ Streams.consume_error)
            (fanout_of socks e)) as Hfan.
  { unfold fanout_of, io_emit. repeat (constructor; [done|]).
    apply Forall_forall. intros a Ha. apply list_elem_of_fmap in Ha as (s & -> & _). done. }
  assert (∀ i a, fanout_of socks e !! i = Some a → is_throw a = false) as Hfan'.
  { unfold fanout_of, io_emit. intros [|[|i]] a Hi; cbn in Hi; [by injection Hi as <-..|].
    apply list_lookup_fmap_Some in Hi as (s & -> & _). done. }
  destruct (Streams.emit_fails env it k).
  - cbn [fst snd]. split; [by repeat constructor|].
    intros [|[|[|i]]] a Hi Ha; cbn in Hi; try done. by injection Hi as <-.
  - destruct (Streams.ack_fails env it k); cbn [fst snd].
    + split; [apply Forall_app; split; [done|by repeat constructor]|].
      intros i a Hi Ha. apply lookup_app_Some in Hi as [Hi | [Hge Hi]].
      * apply Hfan' in Hi. congruence.
      * apply list_lookup_singleton_Some in Hi as [Hi _]. split; [|done].
        rewrite length_app. cbn [length]. lia.
    + destruct (IH (S k) (Streams.xack b Streams.CONSUMER_GROUP e.1)) as [IH1 IH2].
      cbn zeta in *. split; [apply Forall_app; split; [done|by constructor]|].
      intros i a Hi Ha. apply lookup_app_Some in Hi as [Hi | [Hge Hi]].
      * apply Hfan' in Hi. congruence.
      * destruct (i - length (fanout_of socks e)) as [|i'] eqn:Hi'; cbn in Hi.
        { injection Hi as <-. done. }
        destruct (IH2 _ _ Hi Ha) as [Hlen Hthrew]. split; [|done].
        rewrite length_app. cbn [length]. lia.
Qed.

(** The shape of the trace of one iteration: it starts with the read; it has
    no exit and no timer; the error is logged last, if at all; a call that
    throws is followed by the error log. *)
Lemma consume_body_trace (env : Streams.failures) (it : nat) (p : Streams.process)
    (b : Streams.broker) :
  let acts := (Streams.consume_body env it p b).2 in
  (∃ a rest, acts = a :: rest ∧ Streams.is_read a = true)
  ∧ Forall (λ a, is_exit_or_wait a = false) acts
  ∧ (∀ i, acts !! i = Some Streams.consume_error → S i = length acts)
  ∧ (∀ i a, acts !! i = Some a → is_throw a = true →
            acts !! S i = Some Streams.consume_error).
Proof.
  cbn zeta. unfold Streams.consume_body.
  destruct (Streams.read_fails env it).
  { cbn [snd]. split; [by eexists _, _|]. split; [by repeat constructor|]. split.
    - by intros [|[|i]].
    - intros [|[|i]] a Hi Ha; cbn in Hi; try done. by injection Hi as <-. }
  destruct (Streams.xreadgroup b _ _ _) as [[b1 response]|].
  2: { cbn [snd]. split; [by eexists _, _|]. split; [by repeat constructor|]. split.
    - by intros [|[|i]].
    - intros [|[|i]] a Hi Ha; cbn in Hi; try done. by injection Hi as <-. }
  destruct response as [messages|].
  2: { cbn [snd]. split; [by eexists _, _|]. split; [by repeat constructor|]. split.
    - by intros [|i].
    - intros [|i] a Hi Ha; cbn in Hi; try done. by injection Hi as <-. }
  destruct (process_messages_trace env it 0 (sockets p) messages b1) as [Hall Hthrow].
  destruct (Streams.process_messages env it 0 (sockets p) messages b1) as [[b2 acts] o].
  cbn [fst snd] in *. split; [by eexists _, _|]. split; [|split].
  - constructor; [done|]. apply Forall_app. split.
    + eapply Forall_impl; [exact Hall|]. by intros a [? _].
    + destruct o; by repeat constructor.
  - intros [|i] Hi; cbn in Hi; [done|].
    apply lookup_app_Some in Hi as [Hi | [Hge Hi]].
    + apply list_elem_of_lookup_2 in Hi. rewrite Forall_forall in Hall.
      by destruct (Hall _ Hi).
    + destruct o; [done|]. apply list_lookup_singleton_Some in Hi as [Hi _].
      cbn [length]. rewrite length_app. cbn [length]. lia.
  - intros [|i] a Hi Ha; cbn in Hi; [by injection Hi as <-|].
    apply lookup_app_Some in Hi as [Hi | [Hge Hi]].
    + destruct (Hthrow _ _ Hi Ha) as [Hlen ->]. cbn.
      apply lookup_app_Some. right. split; [lia|]. by rewrite Hlen, Nat.sub_diag.
    + destruct o; [done|]. apply list_lookup_singleton_Some in Hi as [_ <-]. done.
Qed.

Lemma consumeStream_unfold (env : Streams.failures) (p : Streams.process)
    (fuel it : nat) (b : Streams.broker) :
  Streams.consumeStream env p (S fuel) it b
  = ((Streams.consumeStream env p fuel (S it) (Streams.consume_body env it p b).1).1,
     (Streams.consume_body env it p b).2
     ++ (Streams.consumeStream env p fuel (S it) (Streams.consume_body env it p b).1).2).
Proof.
  unfold Streams.consumeStream. cbn [Streams.while_loop fst snd].
  destruct (Streams.consume_body env it p b) as [b' acts]. cbn [fst snd].
  by destruct (Streams.while_loop _ _ fuel (S it, b')).
Qed.

Lemma reads_app (l1 l2 : list action) :
  Streams.reads (l1 ++ l2) = Streams.reads l1 + Streams.reads l2.
Proof. unfold Streams.reads. by rewrite filter_app, length_app. Qed.

Lemma reads_process_messages (env : Streams.failures) (it k : nat)
    (socks : list socket_id) (messages : list entry) (b : Streams.broker) :
  Streams.reads (Streams.process_messages env it k socks messages b).1.2 = 0.
Proof.
  assert (∀ e, Streams.reads (fanout_of socks e) = 0) as Hfan.
  { intros e. unfold fanout_of, io_emit, Streams.reads. cbn.
    induction socks as [|s socks IH]; [done|]. cbn. apply IH. }
  revert k b. induction messages as [|e rest IH]; intros k b; [done|].
  rewrite process_messages_unfold. destruct (Streams.emit_fails env it k); [done|].
  destruct (Streams.ack_fails env it k); cbn [fst snd].
  - by rewrite reads_app, Hfan.
  - rewrite reads_app, Hfan.
    change (Streams.reads (XAck ?key ?g ?id :: ?l)) with (Streams.reads l). apply IH.
Qed.

(** Every iteration calls XREADGROUP once. *)
Lemma reads_consume_body (env : Streams.failures) (it : nat) (p : Streams.process)
    (b : Streams.broker) :
  Streams.reads (Streams.consume_body env it p b).2 = 1.
Proof.
  unfold Streams.consume_body. destruct (Streams.read_fails env it); [done|].
  destruct (Streams.xreadgroup b _ _ _) as [[b1 response]|]; [|done].
  destruct response as [messages|]; [|done].
  pose proof (reads_process_messages env it 0 (sockets p) messages b1) as Hr.
  destruct (Streams.process_messages env it 0 (sockets p) messages b1) as [[b2 acts] o].
  cbn [fst snd] in *.
  change (Streams.reads (XReadGroup ?g ?c ?n ?bl ?k ?f ?r :: ?l)) with (S (Streams.reads l)).
  rewrite reads_app, Hr. by destruct o.
Qed.

(** The loop never leaves [while (true)], and nothing of the process is
    consulted to decide whether to go on: after [fuel] iterations it is about
    to start the next one, and it called XREADGROUP [fuel] times. *)
Lemma consumeStream_never_exits (env : Streams.failures) (p : Streams.process)
    (fuel it : nat) (b : Streams.broker) :
  (∃ s, (Streams.consumeStream env p fuel it b).1 = Streams.StillLooping s)
  ∧ Streams.reads (Streams.consumeStream env p fuel it b).2 = fuel.
Proof.
  revert it b. induction fuel as [|fuel IH]; intros it b.
  - split; [by eexists|done].
  - rewrite consumeStream_unfold. cbn [fst snd].
    destruct (IH (S it) (Streams.consume_body env it p b).1) as [Hloop Hreads].
    split; [done|]. by rewrite reads_app, reads_consume_body, Hreads.
Qed.

(** The loop reads the sockets of the process and its process id, not the
    shutdown flag. *)
Lemma consume_body_ignores_flag (env : Streams.failures) (it : nat) (p : Streams.process)
    (b : Streams.broker) (flag : bool) :
  Streams.consume_body env it (set_shutdownInProgress flag p) b
  = Streams.consume_body env it p b.
Proof. reflexivity. Qed.

Lemma consumeStream_ignores_flag (env : Streams.failures) (p : Streams.process)
    (fuel it : nat) (b : Streams.broker) (flag : bool) :
  Streams.consumeStream env (set_shutdownInProgress flag p) fuel it b
  = Streams.consumeStream env p fuel it b.
Proof. reflexivity. Qed.

(** C6, as the code has it. The loop of [consumeStream] is [while (true)] and
    consults nothing of the process to decide whether to go on: for every
    process, whatever its [shutdownInProgress], after any number of
    iterations the loop is about to start the next one, having called
    XREADGROUP once per iteration; and setting or clearing the flag changes
    nothing of what the loop does. *)
Theorem consumer_loop_has_no_cancellation (env : Streams.failures) (p : Streams.process)
    (fuel it : nat) (b : Streams.broker) :
  let r := Streams.consumeStream env p fuel it b in
  (∃ s, r.1 = Streams.StillLooping s)
  ∧ Streams.reads r.2 = fuel
  ∧ ∀ flag : bool,
      Streams.consumeStream env (set_shutdownInProgress flag p) fuel it b = r.
Proof.
  intros r. destruct (consumeStream_never_exits env p fuel it b) as [Hloop Hreads].
  split; [done|]. split; [done|]. intros flag. apply consumeStream_ignores_flag.
Qed.

(** C6 as stated fails: once SIGTERM arrived, [gracefulShutdown] has set
    [shutdownInProgress] and waits for the server to close; the loop of the
    same process does not exit, after the current iteration or after any
    other; three more iterations make three more reads. *)
Lemma consumer_loop_ignores_shutdown :
  shutdownInProgress draining_process = true
  ∧ drain draining_process = AwaitClose
  ∧ exited draining_process = None
  ∧ Streams.reads
      (Streams.consumeStream Streams.no_failures draining_process 3 0 group_created).2 = 3
  ∧ ¬ ∃ fuel s,
        (Streams.consumeStream Streams.no_failures draining_process fuel 0 group_created).1
        = Streams.LoopExited s.
Proof.
  split; [reflexivity|]. split; [reflexivity|]. split; [reflexivity|].
  split; [reflexivity|]. intros (fuel & s & Hexit).
  destruct (consumeStream_never_exits Streams.no_failures draining_process fuel 0
              group_created) as [[s' Hloop] _].
  congruence.
Qed.

Lemma consumeStream_starts_with_read (env : Streams.failures) (p : Streams.process)
    (fuel it : nat) (b : Streams.broker) (a : action) :
  (Streams.consumeStream env p fuel it b).2 !! 0 = Some a → Streams.is_read a = true.
Proof.
  destruct fuel as [|fuel]; [done|]. rewrite consumeStream_unfold. cbn [snd].
  destruct (consume_body_trace env it p b) as [(a' & rest & -> & Hread) _].
  cbn. by intros [= <-].
Qed.

(** C8, as the code has it. Whatever fails in the loop (the read, the
    fan-out of an entry, its acknowledgment), the call that throws is
    followed by the error log of the [catch] block, the process does not
    exit and the loop goes on. No timer is set: the call that follows the
    error log is the XREADGROUP of the next iteration. *)
Theorem consume_errors_are_logged (env : Streams.failures) (p : Streams.process)
    (fuel it : nat) (b : Streams.broker) :
  let r := Streams.consumeStream env p fuel it b in
  (∃ s, r.1 = Streams.StillLooping s)
  ∧ Forall (λ a, is_exit_or_wait a = false) r.2
  ∧ (∀ i a, r.2 !! i = Some a → is_throw a = true →
            r.2 !! S i = Some Streams.consume_error)
  ∧ (∀ i a, r.2 !! i = Some Streams.consume_error → r.2 !! S i = Some a →
            Streams.is_read a = true).
Proof.
  cbn zeta. split; [apply consumeStream_never_exits|].
  revert it b. induction fuel as [|fuel IH]; intros it b.
  { split; [constructor|]. split; by intros []. }
  rewrite consumeStream_unfold. cbn [snd].
  destruct (consume_body_trace env it p b) as (_ & Hall & Hlast & Hthrow).
  destruct (IH (S it) (Streams.consume_body env it p b).1) as (IHall & IHthrow & IHnext).
  cbn zeta in *. split; [by apply Forall_app|]. split.
  - intros i a Hi Ha. apply lookup_app_Some in Hi as [Hi | [Hge Hi]].
    + apply lookup_app_l_Some. by eapply Hthrow.
    + apply lookup_app_Some. right. split; [lia|].
      replace (S i - length (Streams.consume_body env it p b).2)
        with (S (i - length (Streams.consume_body env it p b).2)) by lia.
      by eapply IHthrow.
  - intros i a Hi Hnext. apply lookup_app_Some in Hi as [Hi | [Hge Hi]].
    + apply Hlast in Hi.
      apply lookup_app_Some in Hnext as [Hnext | [_ Hnext]].
      { apply lookup_lt_Some in Hnext. lia. }
      rewrite Hi, Nat.sub_diag in Hnext. by eapply consumeStream_starts_with_read.
    + apply lookup_app_Some in Hnext as [Hnext | [_ Hnext]].
      { apply lookup_lt_Some in Hnext. lia. }
      replace (S i - length (Streams.consume_body env it p b).2)
        with (S (i - length (Streams.consume_body env it p b).2)) in Hnext by lia.
      by eapply IHnext.
Qed.

(** C8 as stated fails: when the first read throws, the loop logs the error
    and reads again at once; no timer stands between the error and the
    retry. *)
Lemma consume_error_no_backoff :
  ¬ backs_off
      (Streams.consumeStream read_fails_once consumer_process 2 0 group_created).2.
Proof.
  intros Hbacks. destruct (Hbacks 1) as [ms Hms]; [reflexivity|].
  vm_compute in Hms. discriminate Hms.
Qed.

(** ** Pending entries of the stream relay *)

Lemma entries_ordered_sublist (l l' : list entry) :
  entries_ordered l → l' `sublist_of` l → entries_ordered l'.
Proof.
  unfold entries_ordered. intros Hl Hsub. induction Hsub as [|e l1 l2 Hsub IH|e l1 l2 Hsub IH].
  - constructor.
  - apply StronglySorted_inv in Hl as [Hl He]. constructor; [by apply IH|].
    rewrite Forall_forall in *. intros e' He'. apply He.
    by eapply elem_of_sublist.
  - apply StronglySorted_inv in Hl as [Hl _]. by apply IH.
Qed.

Lemma entries_ordered_last (l : list entry) (e e' : entry) :
  entries_ordered l → last l = Some e' → e ∈ l → e.1 ≤ e'.1.
Proof.
  intros Hl Hlast He. apply last_Some in Hlast as [l' ->].
  apply elem_of_app in He as [He | He].
  - apply Nat.lt_le_incl. unfold entries_ordered in Hl.
    apply StronglySorted_app in Hl as [Hl _]. apply Hl; [done|apply list_elem_of_here].
  - apply list_elem_of_singleton in He. by subst.
Qed.

Lemma top_id_bound (l : list entry) (e : entry) : e ∈ l → e.1 ≤ Streams.top_id l.
Proof.
  induction l as [|e' l IH]; intros He; [by apply elem_of_nil in He|].
  change (Streams.top_id (e' :: l)) with (e'.1 `max` Streams.top_id l).
  apply elem_of_cons in He as [-> | He]; [lia|]. specialize (IH He). lia.
Qed.

Lemma xadd_ordered (b : Streams.broker) (fields : list string) :
  entries_ordered (Streams.stream b) → entries_ordered (Streams.stream (Streams.xadd b fields)).
Proof.
  intros Hb. unfold Streams.xadd. cbn. apply StronglySorted_app. split; [|split].
  - intros e e' He He'. apply list_elem_of_singleton in He' as ->. cbn.
    apply top_id_bound in He. lia.
  - done.
  - repeat constructor.
Qed.

Local Ltac nil_case :=
  cbn;
  first [ apply not_elem_of_nil
        | intros; match goal with H : _ ∈ [] |- _ => by apply elem_of_nil in H end ].

Section Group.
Local Abbreviation G := Streams.CONSUMER_GROUP.

Lemma xreadgroup_spec (b b' : Streams.broker) (c : string) (n : nat)
    (response : option (list entry)) :
  Streams.xreadgroup b G c n = Some (b', response) →
  Streams.stream b' = Streams.stream b
  ∧ Streams.last_delivered_id b G ≤ Streams.last_delivered_id b' G
  ∧ (∀ x, x ∈ Streams.pending_ids b G → x ∈ Streams.pending_ids b' G)
  ∧ (∀ messages x, response = Some messages → x ∈ messages.*1 →
       Streams.last_delivered_id b G < x ∧ x ∈ Streams.pending_ids b' G
       ∧ (entries_ordered (Streams.stream b) → x ≤ Streams.last_delivered_id b' G)).
Proof.
  unfold Streams.xreadgroup, Streams.last_delivered_id, Streams.pending_ids.
  destruct (Streams.groups b !! G) as [gr|] eqn:Hgr; [|done].
  set (fresh := take n _).
  destruct (last fresh) as [e|] eqn:Hlast.
  - intros [= <- <-]. cbn. rewrite lookup_insert_eq. cbn.
    assert (∀ e', e' ∈ fresh → Streams.last_delivered gr < e'.1) as Hfresh.
    { intros e' He'. apply elem_of_take in He' as (i & Hi & _).
      apply list_elem_of_lookup_2, list_elem_of_filter in Hi. tauto. }
    split; [done|]. split.
    { apply Nat.lt_le_incl, Hfresh. by apply last_Some_elem_of. }
    split.
    { intros x Hx. rewrite fmap_app. apply elem_of_app. by left. }
    intros messages x [= <-] Hx. apply list_elem_of_fmap in Hx as (e' & -> & He').
    split; [by apply Hfresh|]. split.
    + rewrite fmap_app. apply elem_of_app. right.
      rewrite <- list_fmap_compose. apply list_elem_of_fmap. by exists e'.
    + intros Hord. eapply (entries_ordered_last fresh); [|done..].
      eapply entries_ordered_sublist; [exact Hord|].
      etrans; [apply sublist_take|apply sublist_filter].
  - intros [= <- <-]. rewrite Hgr. repeat split; done.
Qed.

Lemma xack_spec (b : Streams.broker) (id x : nat) :
  Streams.stream (Streams.xack b G id) = Streams.stream b
  ∧ Streams.last_delivered_id (Streams.xack b G id) G = Streams.last_delivered_id b G
  ∧ (x ∈ Streams.pending_ids b G → x ≠ id → x ∈ Streams.pending_ids (Streams.xack b G id) G).
Proof.
  unfold Streams.xack, Streams.last_delivered_id, Streams.pending_ids.
  destruct (Streams.groups b !! G) as [gr|] eqn:Hgr.
  - cbn. rewrite lookup_insert_eq. cbn. repeat split.
    intros Hx Hne. apply list_elem_of_fmap in Hx as ([x' c] & -> & Hx).
    apply list_elem_of_fmap. exists (x', c). split; [done|].
    apply list_elem_of_filter. done.
  - by rewrite Hgr.
Qed.

Lemma process_messages_broker (env : Streams.failures) (it k : nat)
    (socks : list socket_id) (messages : list entry) (b : Streams.broker) (x : nat) :
  let r := Streams.process_messages env it k socks messages b in
  Streams.stream r.1.1 = Streams.stream b
  ∧ Streams.last_delivered_id r.1.1 G = Streams.last_delivered_id b G
  ∧ (x ∈ Streams.pending_ids b G →
     XAck Streams.STREAM_KEY G x ∉ r.1.2 → x ∈ Streams.pending_ids r.1.1 G)
  ∧ (x ∈ Streams.acked_ids r.1.2 → x ∈ messages.*1)
  ∧ Streams.delivered_ids r.1.2 = [].
Proof.
  assert (∀ e, Streams.delivered_ids (fanout_of socks e) = []) as Hfan.
  { intros e. unfold fanout_of, io_emit, Streams.delivered_ids. cbn.
    induction socks as [|s socks IH]; [done|]. cbn. apply IH. }
  cbn zeta. revert k b. induction messages as [|e rest IH]; intros k b.
  { repeat split; try done; intros Hx; by apply elem_of_nil in Hx. }
  rewrite process_messages_unfold. destruct (Streams.emit_fails env it k).
  { cbn [fst snd]. repeat split; try done; intros Hx; by apply elem_of_nil in Hx. }
  destruct (Streams.ack_fails env it k); cbn [fst snd].
  { split; [done|]. split; [done|]. split; [done|]. split.
    - rewrite acked_ids_app, acked_ids_fanout_of. cbn. intros Hx.
      apply list_elem_of_singleton in Hx as ->. apply list_elem_of_here.
    - unfold Streams.delivered_ids in *. by rewrite flat_map_app, Hfan. }
  destruct (IH (S k) (Streams.xack b G e.1)) as (I1 & I2 & I3 & I4 & I5).
  destruct (xack_spec b e.1 x) as (A1 & A2 & A3).
  split; [congruence|]. split; [congruence|]. split; [|split].
  - intros Hx Hack. apply I3.
    + apply A3; [done|]. intros ->. apply Hack, elem_of_app. right. apply list_elem_of_here.
    + intros Hin. apply Hack, elem_of_app. right. by apply list_elem_of_further.
  - rewrite acked_ids_app, acked_ids_fanout_of.
    change (Streams.acked_ids (XAck ?key ?g ?id :: ?l)) with (id :: Streams.acked_ids l).
    cbn [app]. intros Hx. apply elem_of_cons in Hx as [-> | Hx].
    + apply list_elem_of_here.
    + apply list_elem_of_further. by apply I4.
  - unfold Streams.delivered_ids in *. rewrite flat_map_app, Hfan. cbn. exact I5.
Qed.

(** One iteration of the loop, seen from the broker. *)
Lemma consume_body_broker (env : Streams.failures) (it : nat) (p : Streams.process)
    (b : Streams.broker) (x : nat) :
  let r := Streams.consume_body env it p b in
  Streams.stream r.1 = Streams.stream b
  ∧ Streams.last_delivered_id b G ≤ Streams.last_delivered_id r.1 G
  ∧ (x ∈ Streams.delivered_ids r.2 → Streams.last_delivered_id b G < x)
  ∧ (x ∈ Streams.acked_ids r.2 → x ∈ Streams.delivered_ids r.2)
  ∧ (x ∈ Streams.pending_ids b G → XAck Streams.STREAM_KEY G x ∉ r.2 →
     x ∈ Streams.pending_ids r.1 G)
  ∧ (entries_ordered (Streams.stream b) → x ∈ Streams.delivered_ids r.2 →
     XAck Streams.STREAM_KEY G x ∉ r.2 → delivered_unacked r.1 x).
Proof.
  cbn zeta. unfold Streams.consume_body.
  destruct (Streams.read_fails env it).
  { cbn [fst snd]. repeat split; try done; intros; cbn in *; try done;
      match goal with H : _ ∈ [] |- _ => by apply elem_of_nil in H end. }
  destruct (Streams.xreadgroup b Streams.CONSUMER_GROUP _ 10) as [[b1 response]|] eqn:Hread.
  2: { cbn [fst snd]. repeat split; try done; intros; cbn in *; try done;
      match goal with H : _ ∈ [] |- _ => by apply elem_of_nil in H end. }
  destruct (xreadgroup_spec _ _ _ _ _ Hread) as (R1 & R2 & R3 & R4).
  destruct response as [messages|].
  2: { cbn [fst snd]. split; [done|]. split; [done|].
       split; [cbn; intros H; by apply elem_of_nil in H|]. split; [done|].
       split; [intros; by apply R3|]. intros _ H. cbn in H. by apply elem_of_nil in H. }
  specialize (R4 messages x eq_refl).
  destruct (process_messages_broker env it 0 (sockets p) messages b1 x)
    as (M1 & M2 & M3 & M4 & M5).
  destruct (Streams.process_messages env it 0 (sockets p) messages b1) as [[b2 acts] o].
  cbn [fst snd] in *.
  assert (Streams.delivered_ids
            (XReadGroup Streams.CONSUMER_GROUP (Streams.CONSUMER_NAME (Streams.pid (app p)))
               10 5000%N Streams.STREAM_KEY ">" (Some messages)
             :: acts ++ match o with Threw => [Streams.consume_error] | Returned => [] end)
          = messages.*1) as Hdel.
  { unfold Streams.delivered_ids in *. cbn [flat_map]. rewrite flat_map_app, M5.
    destruct o; cbn; by rewrite app_nil_r. }
  assert (Streams.acked_ids
            (XReadGroup Streams.CONSUMER_GROUP (Streams.CONSUMER_NAME (Streams.pid (app p)))
               10 5000%N Streams.STREAM_KEY ">" (Some messages)
             :: acts ++ match o with Threw => [Streams.consume_error] | Returned => [] end)
          = Streams.acked_ids acts) as Hack.
  { change (Streams.acked_ids (XReadGroup ?g ?c ?n ?bl ?k ?f ?r :: ?l))
      with (Streams.acked_ids l).
    rewrite acked_ids_app. destruct o; cbn; by rewrite app_nil_r. }
  rewrite Hdel, Hack.
  assert (XAck Streams.STREAM_KEY G x
            ∉ XReadGroup Streams.CONSUMER_GROUP
                (Streams.CONSUMER_NAME (Streams.pid (app p)))
                10 5000%N Streams.STREAM_KEY ">" (Some messages)
              :: acts ++ match o with Threw => [Streams.consume_error] | Returned => [] end
          → XAck Streams.STREAM_KEY G x ∉ acts) as Hnot.
  { intros Hn Hin. apply Hn. apply list_elem_of_further, elem_of_app. by left. }
  split; [congruence|]. split; [lia|]. split; [intros Hx; by apply R4|].
  split; [done|]. split.
  - intros Hx Hn. apply M3; auto.
  - intros Hord Hx Hn. destruct (R4 Hx) as (_ & Hpend & Hle). split.
    + apply M3; auto.
    + rewrite M2. by apply Hle.
Qed.

(** An entry that was delivered and not acknowledged stays so, whatever the
    consumers of the group do next: no read returns it and no
    acknowledgment names it. *)
Lemma run_group_keeps_pending (env : Streams.failures) (it : nat)
    (steps : list Streams.step) (b : Streams.broker) (x : nat) :
  delivered_unacked b x →
  let r := Streams.run_group env it steps b in
  (x ∉ Streams.delivered_ids r.2) ∧ (x ∉ Streams.acked_ids r.2) ∧ delivered_unacked r.1 x
  ∧ ∀ y, y ∈ Streams.delivered_ids r.2 → Streams.last_delivered_id b G < y.
Proof.
  cbn zeta. revert it b. induction steps as [|st steps IH]; intros it b Hb.
  { cbn [Streams.run_group fst snd]. repeat split; try apply Hb; nil_case. }
  cbn [Streams.run_group].
  assert (∃ b1 acts1,
            match st with
            | Streams.Init => ((Streams.xgroup_create b Streams.CONSUMER_GROUP).1, [])
            | Streams.Consume p => Streams.consume_body env it p b
            | Streams.Append fields => (Streams.xadd b fields, [])
            end = (b1, acts1)
            ∧ delivered_unacked b1 x
            ∧ (x ∉ Streams.delivered_ids acts1) ∧ (x ∉ Streams.acked_ids acts1)
            ∧ Streams.last_delivered_id b G ≤ Streams.last_delivered_id b1 G
            ∧ ∀ y, y ∈ Streams.delivered_ids acts1 → Streams.last_delivered_id b G < y)
    as (b1 & acts1 & -> & Hb1 & Hd1 & Ha1 & Hle1 & Hnew1).
  { destruct Hb as [Hpend Hle]. destruct st as [|p|fields].
    - eexists _, _. split; [reflexivity|]. unfold Streams.xgroup_create.
      unfold delivered_unacked, Streams.pending_ids, Streams.last_delivered_id in *.
      destruct (Streams.groups b !! G) eqn:Hgr; [|by apply elem_of_nil in Hpend].
      cbn [fst]. rewrite Hgr. repeat split; try done; nil_case.
    - destruct (consume_body_broker env it p b x) as (C1 & C2 & C3 & C4 & C5 & C6).
      destruct (Streams.consume_body env it p b) as [b1 acts1] eqn:Hbody. cbn [fst snd] in *.
      eexists _, _. split; [reflexivity|].
      assert (x ∉ Streams.delivered_ids acts1) as Hd.
      { intros Hx. apply C3 in Hx. lia. }
      assert (x ∉ Streams.acked_ids acts1) as Ha by auto.
      repeat split; try done.
      + apply C5; [done|]. intros Hin. apply Ha.
        unfold Streams.acked_ids. apply list_elem_of_omap. eexists. split; [exact Hin|done].
      + lia.
      + intros y Hy. pose proof (consume_body_broker env it p b y) as (_ & _ & Y3 & _).
        rewrite Hbody in Y3. by apply Y3.
    - eexists _, _. split; [reflexivity|]. repeat split; try done; nil_case. }
  destruct (IH (S it) b1 Hb1) as (I1 & I2 & I3 & I4).
  destruct (Streams.run_group env (S it) steps b1) as [b2 acts2]. cbn [fst snd] in *.
  unfold Streams.delivered_ids in *. rewrite flat_map_app.
  rewrite acked_ids_app. repeat split.
  - rewrite elem_of_app. tauto.
  - rewrite elem_of_app. tauto.
  - apply I3.
  - apply I3.
  - intros y Hy. apply elem_of_app in Hy as [Hy | Hy]; [by apply Hnew1|].
    apply I4 in Hy. lia.
Qed.

End Group.

(** The ids stay ordered in every state of the broker the relays produce. *)
Lemma run_group_ordered (env : Streams.failures) (it : nat) (steps : list Streams.step)
    (b : Streams.broker) :
  entries_ordered (Streams.stream b) →
  entries_ordered (Streams.stream (Streams.run_group env it steps b).1).
Proof.
  revert it b. induction steps as [|st steps IH]; intros it b Hb; [done|].
  cbn [Streams.run_group].
  assert (entries_ordered
            (Streams.stream
               (match st with
                | Streams.Init => ((Streams.xgroup_create b Streams.CONSUMER_GROUP).1, [])
                | Streams.Consume p => Streams.consume_body env it p b
                | Streams.Append fields => (Streams.xadd b fields, [])
                end).1)) as Hb1.
  { destruct st as [|p|fields]; cbn [fst].
    - unfold Streams.xgroup_create. by destruct (Streams.groups b !! _).
    - destruct (consume_body_broker env it p b 0) as (-> & _). done.
    - by apply xadd_ordered. }
  destruct (match st with Streams.Init => _ | _ => _ end) as [b1 acts1]. cbn [fst] in Hb1.
  specialize (IH (S it) b1 Hb1).
  by destruct (Streams.run_group env (S it) steps b1) as [b2 acts2].
Qed.

(** C2, as the code has it. Every read of the loop asks for the entries the
    group never delivered (">"). So an entry that one iteration received and
    did not acknowledge stays in the pending list of the group: whatever the
    consumers of the group do afterwards (this process or a restarted one,
    in any order, with new notices appended in between), no read returns the
    entry again and no acknowledgment names it; every read returns ids above
    the last-delivered id of the group. *)
Theorem unacked_entry_is_not_redelivered (env : Streams.failures) (it : nat)
    (p : Streams.process) (b : Streams.broker) (x : nat) (steps : list Streams.step) :
  entries_ordered (Streams.stream b) →
  x ∈ Streams.delivered_ids (Streams.consume_body env it p b).2 →
  XAck Streams.STREAM_KEY Streams.CONSUMER_GROUP x ∉ (Streams.consume_body env it p b).2 →
  let b1 := (Streams.consume_body env it p b).1 in
  let r := Streams.run_group env (S it) steps b1 in
  x ∈ Streams.pending_ids b1 Streams.CONSUMER_GROUP
  ∧ (x ∉ Streams.delivered_ids r.2)
  ∧ (x ∉ Streams.acked_ids r.2)
  ∧ x ∈ Streams.pending_ids r.1 Streams.CONSUMER_GROUP
  ∧ ∀ y, y ∈ Streams.delivered_ids r.2 →
         Streams.last_delivered_id b1 Streams.CONSUMER_GROUP < y.
Proof.
  intros Hord Hdel Hack b1 r.
  destruct (consume_body_broker env it p b x) as (_ & _ & _ & _ & _ & Hunacked).
  specialize (Hunacked Hord Hdel Hack).
  destruct (run_group_keeps_pending env (S it) steps b1 x Hunacked) as (R1 & R2 & R3 & R4).
  split; [apply Hunacked|]. split; [done|]. split; [done|]. split; [apply R3|done].
Qed.

(** The fan-out of the only notice throws; then the same process reads
    again, and a restarted process initializes the group and reads. *)
Lemma unacked_entry_is_not_redelivered_witness :
  let b1 := (Streams.consume_body fanout_fails_first 0 consumer_process one_notice).1 in
  let r := Streams.run_group fanout_fails_first 1
             [Streams.Consume consumer_process; Streams.Init;
              Streams.Consume restarted_process] b1 in
  1 ∈ Streams.pending_ids b1 Streams.CONSUMER_GROUP
  ∧ (1 ∉ Streams.delivered_ids r.2)
  ∧ (1 ∉ Streams.acked_ids r.2)
  ∧ 1 ∈ Streams.pending_ids r.1 Streams.CONSUMER_GROUP
  ∧ ∀ y, y ∈ Streams.delivered_ids r.2 →
         Streams.last_delivered_id b1 Streams.CONSUMER_GROUP < y.
Proof.
  apply (unacked_entry_is_not_redelivered fanout_fails_first 0 consumer_process
           one_notice 1).
  - unfold one_notice, group_created. apply xadd_ordered. constructor.
  - apply (bool_decide_unpack _). vm_compute. exact I.
  - apply (bool_decide_unpack _). vm_compute. exact I.
Defined.

(** C2 as stated fails. The stream holds one notice; the first iteration of
    the consumer receives it and the fan-out throws, so the entry is left
    unacknowledged. From then on the entry is pending and no consumer of the
    group is ever given it again: the next read of the same process and the
    first read of a restarted process both return nothing. *)
Lemma unacked_entry_never_comes_back :
  let r0 := Streams.consume_body fanout_fails_first 0 consumer_process one_notice in
  Streams.delivered_ids r0.2 = [1]
  ∧ Streams.acked_ids r0.2 = []
  ∧ Streams.pending_ids r0.1 Streams.CONSUMER_GROUP = [1]
  ∧ (Streams.consume_body fanout_fails_first 1 consumer_process r0.1).2
    = [XReadGroup "chat-group" "consumer-100" 10 5000%N "chat-messages" ">" None]
  ∧ (Streams.consume_body fanout_fails_first 1 restarted_process r0.1).2
    = [XReadGroup "chat-group" "consumer-200" 10 5000%N "chat-messages" ">" None]
  ∧ ¬ ∃ steps, 1 ∈ Streams.delivered_ids
                     (Streams.run_group fanout_fails_first 1 steps r0.1).2.
Proof.
  intros r0. split; [reflexivity|]. split; [reflexivity|]. split; [reflexivity|].
  split; [reflexivity|]. split; [reflexivity|]. intros [steps Hback].
  assert (delivered_unacked r0.1 1) as Hunacked.
  { split; apply (bool_decide_unpack _); vm_compute; exact I. }
  by destruct (run_group_keeps_pending fanout_fails_first 1 steps r0.1 1 Hunacked)
    as (Hnot & _).
Qed.

(** * Further properties *)

(** ** Decoding any field list *)


(** X1. Decoding the flat field list of any pairs gives the object that maps
    every field name other than "__proto__" to the value of its last
    occurrence in the list, and has no other key: a pair whose name is
    "__proto__" leaves no trace in the object. *)
Theorem decode_last_value_wins (kvs : list (string * string)) :
  Streams.decode (Streams.flatten kvs)
  = JStr <$> (list_to_map (reverse (filter (λ kv, kv.1 ≠ "__proto__") kvs))
              : gmap string string).
Proof.
  unfold Streams.decode. rewrite decode_into_flatten.
  induction kvs as [|[k v] kvs IH] using rev_ind; [cbn; by rewrite fmap_empty|].
  rewrite foldl_app, filter_app. cbn [foldl fst snd]. rewrite IH.
  unfold Streams.set_property. case_decide as Hk.
  - rewrite filter_cons_False by (cbn; tauto). by rewrite filter_nil, app_nil_r.
  - rewrite filter_cons_True by done. rewrite filter_nil, reverse_snoc.
    cbn [list_to_map foldr fst snd uncurry]. by rewrite fmap_insert.
Qed.


(** ** Messages the pub/sub relay does not relay *)

Section PubSubMore.
Variable JSON_stringify : jsobject → string.
Variable JSON_parse : string → option jsobject.

(** X3. A "message" event for any other channel than "chat-messages" (the
    subscriber client is also subscribed to channels of the adapter) is
    dropped by every listener the connections added: however many listeners
    there are and whatever the message is, also one that [JSON.parse] would
    reject, the dispatch to them logs nothing, emits nothing and throws
    nothing. *)
Theorem other_channel_is_ignored (ls socks : list socket_id) (channel message : string) :
  channel ≠ PubSub.REDIS_CHANNEL →
  PubSub.emit_message JSON_parse ls socks channel message = ([], Returned).
Proof.
  intros Hne. induction ls as [|l ls IH]; [done|]. cbn [PubSub.emit_message].
  unfold PubSub.onMessage. rewrite decide_False by done. by rewrite IH.
Qed.

Lemma emit_message_rejected (ls socks : list socket_id) (message : string) :
  JSON_parse message = None →
  Forall (λ a, is_fanout a = false)
    (PubSub.emit_message JSON_parse ls socks PubSub.REDIS_CHANNEL message).1.
Proof.
  intros Hparse. destruct ls as [|l ls]; [constructor|]. cbn [PubSub.emit_message].
  unfold PubSub.onMessage. rewrite decide_True by done.
  rewrite Hparse. by repeat constructor.
Qed.

(** X4. A message delivered on "chat-messages" that [JSON.parse] rejects
    reaches no client: handling it makes no [io.emit] call and sends nothing
    to any local socket. *)
Theorem rejected_message_is_not_relayed (message : string) (p : PubSub.process) :
  JSON_parse message = None →
  Forall (λ a, is_fanout a = false)
    (PubSub.handle JSON_stringify JSON_parse (PubSub.Message message) p).2.
Proof.
  intros Hparse. unfold PubSub.handle, alive. destruct (exited p); [constructor|].
  unfold PubSub.on_broker_message.
  pose proof (emit_message_rejected (PubSub.listeners p) (sockets p) message Hparse)
    as Hall.
  destruct (PubSub.emit_message _ _ _ _ _) as [acts o]. cbn [fst snd] in *.
  destruct o; cbn [snd]; [done|]. apply Forall_app. split; [done|]. by repeat constructor.
Qed.

(** X5. A process without connected clients has no listener of its own on
    the subscriber client: a message the broker delivers on "chat-messages"
    is not logged, parsed or emitted, and the process is as it was. *)
Theorem no_clients_no_relay (message : string) (p : PubSub.process) :
  PubSub.reachable JSON_stringify JSON_parse p → sockets p = [] →
  PubSub.listeners p = []
  ∧ PubSub.handle JSON_stringify JSON_parse (PubSub.Message message) p = (p, []).
Proof.
  intros Hreach Hnone. destruct (reachable_inv _ _ _ Hreach) as [Hperm _].
  rewrite Hnone in Hperm. apply Permutation_nil_r in Hperm. split; [done|].
  unfold PubSub.handle, alive. destruct (exited p); [done|].
  unfold PubSub.on_broker_message. by rewrite Hperm.
Qed.

(** X6. In every state the relay reaches, one delivery of a message by the
    broker on "chat-messages" sends to each connected socket as many copies
    of the payload as there are connected sockets. *)
Theorem each_socket_gets_one_copy_per_listener (p : PubSub.process) (message : string)
    (payload : jsobject) (sid : socket_id) :
  PubSub.reachable JSON_stringify JSON_parse p → exited p = None →
  JSON_parse message = Some payload → sid ∈ sockets p →
  PubSub.copies sid "new-message" payload
    (PubSub.handle JSON_stringify JSON_parse
       (PubSub.Message message) p).2
  = length (sockets p).
Proof.
  intros Hreach Halive Hparse Hs.
  destruct (reachable_inv _ _ _ Hreach) as [Hperm Hnd].
  unfold PubSub.handle, alive. rewrite Halive. unfold PubSub.on_broker_message.
  destruct (emit_message_copies JSON_parse (PubSub.listeners p) (sockets p) message payload
              sid Hparse Hnd Hs) as (acts & -> & Hcopies).
  cbn [snd]. rewrite Hcopies. by apply Permutation_length.
Qed.

Lemma removeListener_last (sid : socket_id) (ls : list socket_id) :
  PubSub.removeListener sid (ls ++ [sid]) = ls.
Proof.
  unfold PubSub.removeListener. rewrite reverse_snoc. cbn [PubSub.remove_first].
  rewrite decide_True by done. apply reverse_involutive.
Qed.

Lemma map_delete_last (sid : socket_id) (socks : list socket_id) :
  sid ∉ socks → map_delete sid (socks ++ [sid]) = socks.
Proof.
  intros Hfresh. unfold map_delete. rewrite filter_app.
  fold (map_delete sid socks). rewrite map_delete_notin by done.
  rewrite filter_cons_False by naive_solver. apply app_nil_r.
Qed.

(** X7. A client that connects and disconnects leaves the process as it
    was (the same sockets, the same listeners in the same order: the
    listener removed is the one its own connection added), and the two
    notices published are the connect notice and the disconnect notice of
    that client. *)
Theorem connect_then_disconnect (sid : socket_id) (p : PubSub.process) :
  sid ∉ sockets p → exited p = None →
  let r1 := PubSub.handle JSON_stringify JSON_parse (PubSub.Connection sid) p in
  let r2 := PubSub.handle JSON_stringify JSON_parse (PubSub.Disconnect sid) r1.1 in
  r2.1 = p
  ∧ publishes (r1.2 ++ r2.2)
    = [("chat-messages",
        JSON_stringify (PubSub.notice sid ("New client connected: " +:+ sid)));
       ("chat-messages",
        JSON_stringify (PubSub.notice sid ("Client disconnected: " +:+ sid)))].
Proof.
  intros Hfresh Halive. destruct p as [ls socks flag pc ex]. cbn in Hfresh, Halive. subst ex.
  cbn zeta. unfold PubSub.handle, alive. cbn [exited].
  unfold PubSub.on_connection, close_socket, PubSub.on_disconnect, PubSub.listeners.
  cbn [app sockets set_sockets set_app shutdownInProgress drain exited fst snd].
  unfold map_set. rewrite decide_False by done.
  rewrite removeListener_last, map_delete_last by done. split; [done|]. reflexivity.
Qed.

End PubSubMore.

(** ** What a drain leaves behind *)

Lemma filter_keeps_all {A} (P : A → Prop) `{!∀ x, Decision (P x)} (l : list A) :
  Forall P l → filter P l = l.
Proof.
  induction 1 as [|x l Hx Hl IH]; [done|]. rewrite filter_cons_True by done. by rewrite IH.
Qed.

Lemma filter_keeps_none {A} (P : A → Prop) `{!∀ x, Decision (P x)} (l : list A) :
  Forall (λ x, ¬ P x) l → filter P l = [].
Proof.
  induction 1 as [|x l Hx Hl IH]; [done|]. by rewrite filter_cons_False.
Qed.

Section DrainFacts.
Context {V : Type}.
Variable on_disconnect : socket_id → V → V * list action.

Lemma disconnect_all_sockets (throws : socket_id → bool) (l : list socket_id) (p : proc V) :
  Forall (λ s, throws s = false) l →
  sockets (disconnect_all on_disconnect throws l p).1.1
  = filter (λ s, s ∉ l) (sockets p).
Proof.
  intros Hl. revert p. induction Hl as [|sid l Hsid Hl IH]; intros p.
  - cbn. symmetry. apply filter_keeps_all, Forall_forall. intros s _. apply not_elem_of_nil.
  - cbn [disconnect_all]. rewrite Hsid.
    specialize (IH (close_socket on_disconnect sid p).1).
    unfold close_socket in *. destruct (on_disconnect sid (app p)) as [v acts1].
    cbn [fst snd] in *.
    destruct (disconnect_all on_disconnect throws l _) as [[p2 acts2] o].
    cbn [fst snd] in *. rewrite IH. cbn [sockets set_app set_sockets]. unfold map_delete.
    rewrite list_filter_filter. apply list_filter_iff. intros s.
    rewrite not_elem_of_cons. tauto.
Qed.

End DrainFacts.

(** X8. In every state the pub/sub relay reaches, the first termination
    signal (when no [socket.disconnect] throws) leaves the process without
    sockets and without "message" listeners on the subscriber client, waiting
    for the server to close: the drain removes every listener the
    connections had added. *)
Theorem drain_removes_every_listener
    (JSON_stringify : jsobject → string) (JSON_parse : string → option jsobject)
    (p : PubSub.process) (signal : string) (throws : socket_id → bool) :
  PubSub.reachable JSON_stringify JSON_parse p →
  shutdownInProgress p = false → exited p = None →
  Forall (λ s, throws s = false) (sockets p) →
  let p' := (PubSub.handle JSON_stringify JSON_parse
               (PubSub.Lifecycle (Signal signal throws)) p).1 in
  sockets p' = [] ∧ PubSub.listeners p' = [] ∧ drain p' = AwaitClose
  ∧ shutdownInProgress p' = true.
Proof.
  intros Hreach Hflag Halive Hok p'.
  assert (PubSub.reachable JSON_stringify JSON_parse p') as Hreach'.
  { by apply (PubSub.reachable_step _ _ p (PubSub.Lifecycle (Signal signal throws))). }
  destruct (reachable_inv _ _ _ Hreach') as [Hperm _].
  destruct (first_signal_drains (PubSub.on_disconnect JSON_stringify)
              (pubsub_on_disconnect_quiet JSON_stringify) signal throws p Hflag Hok)
    as (D1 & D2 & _).
  assert (sockets p' = []) as Hnone.
  { subst p'. unfold PubSub.handle, alive. rewrite Halive. cbn [lifecycle].
    unfold gracefulShutdown. rewrite Hflag.
    pose proof (disconnect_all_sockets (PubSub.on_disconnect JSON_stringify) throws
                  (sockets (set_shutdownInProgress true p))
                  (set_shutdownInProgress true p) Hok) as Hs.
    pose proof (disconnect_all_returns (PubSub.on_disconnect JSON_stringify)
                  (pubsub_on_disconnect_quiet JSON_stringify) throws
                  (sockets (set_shutdownInProgress true p))
                  (set_shutdownInProgress true p) Hok) as [Hret _].
    destruct (disconnect_all _ throws _ _) as [[p1 acts1] o]. cbn [fst snd] in *.
    subst o. cbn [fst sockets set_drain]. rewrite Hs.
    apply filter_keeps_none, Forall_forall. intros s Hs' Hn. by apply Hn. }
  rewrite Hnone in Hperm. apply Permutation_nil_r in Hperm.
  subst p'. unfold PubSub.handle, alive in *. rewrite Halive in *. cbn [lifecycle] in *.
  done.
Qed.

(** ** Iterations of the consumer loop in which nothing fails *)

Section CleanIteration.
Local Abbreviation G := Streams.CONSUMER_GROUP.

Lemma process_messages_clean (env : Streams.failures) (it k : nat) (socks : list socket_id)
    (messages : list entry) (b : Streams.broker) :
  (∀ k, Streams.emit_fails env it k = false ∧ Streams.ack_fails env it k = false) →
  Streams.process_messages env it k socks messages b
  = (foldl (λ b e, Streams.xack b G e.1) b messages,
     flat_map (handled socks) messages, Returned).
Proof.
  intros Hclean. revert k b. induction messages as [|e rest IH]; intros k b; [done|].
  rewrite process_messages_unfold. destruct (Hclean k) as [-> ->].
  rewrite IH. cbn [fst snd foldl flat_map]. unfold handled at 2.
  by rewrite <- app_assoc.
Qed.

Lemma xack_pending_ids (b : Streams.broker) (id : nat) :
  Streams.pending_ids (Streams.xack b G id) G
  = filter (λ x, x ≠ id) (Streams.pending_ids b G).
Proof.
  unfold Streams.xack, Streams.pending_ids.
  destruct (Streams.groups b !! G) as [gr|] eqn:Hgr; [|by rewrite Hgr].
  cbn [Streams.groups]. rewrite lookup_insert_eq. cbn [Streams.pending].
  induction (Streams.pending gr) as [|[x c] l IH]; [done|]. rewrite fmap_cons.
  destruct (decide (x = id)) as [->|Hne].
  - rewrite (filter_cons_False _ (id, c)) by (cbn; naive_solver).
    rewrite (filter_cons_False _ (id, c).1) by (cbn; naive_solver). apply IH.
  - rewrite (filter_cons_True _ (x, c)) by done.
    rewrite (filter_cons_True _ (x, c).1) by done. rewrite fmap_cons. by rewrite IH.
Qed.

Lemma xack_all_pending_ids (b : Streams.broker) (messages : list entry) :
  Streams.pending_ids (foldl (λ b e, Streams.xack b G e.1) b messages) G
  = filter (λ x, x ∉ messages.*1) (Streams.pending_ids b G).
Proof.
  revert b. induction messages as [|e rest IH]; intros b.
  - cbn. symmetry. apply filter_keeps_all, Forall_forall. intros x _. apply not_elem_of_nil.
  - cbn [foldl]. rewrite IH, xack_pending_ids, list_filter_filter.
    apply list_filter_iff. intros x. cbn. rewrite not_elem_of_cons. tauto.
Qed.

Lemma xack_all_last_delivered (b : Streams.broker) (messages : list entry) :
  Streams.last_delivered_id (foldl (λ b e, Streams.xack b G e.1) b messages) G
  = Streams.last_delivered_id b G.
Proof.
  revert b. induction messages as [|e rest IH]; intros b; [done|].
  cbn [foldl]. rewrite IH. by destruct (xack_spec b e.1 0) as (_ & -> & _).
Qed.

Lemma acked_ids_handled (socks : list socket_id) (messages : list entry) :
  Streams.acked_ids (flat_map (handled socks) messages) = messages.*1.
Proof.
  induction messages as [|e rest IH]; [done|]. cbn [flat_map]. unfold handled at 1.
  rewrite !acked_ids_app, acked_ids_fanout_of, IH. done.
Qed.

Lemma deliveries_to_app (sid : socket_id) (l1 l2 : list action) :
  deliveries_to sid (l1 ++ l2) = deliveries_to sid l1 + deliveries_to sid l2.
Proof. unfold deliveries_to. by rewrite filter_app, length_app. Qed.

Lemma deliveries_to_fanout_of (sid : socket_id) (socks : list socket_id) (e : entry) :
  NoDup socks → sid ∈ socks → deliveries_to sid (fanout_of socks e) = 1.
Proof.
  intros Hnd Hs. unfold fanout_of, io_emit, deliveries_to.
  rewrite !filter_cons_False by done.
  induction socks as [|s socks IH]; [by apply elem_of_nil in Hs|].
  apply NoDup_cons in Hnd as [Hs' Hnd]. cbn [map].
  destruct (decide (s = sid)) as [->|Hne].
  - rewrite filter_cons_True by (cbn; by rewrite bool_decide_eq_true). cbn [length]. f_equal.
    apply length_zero_iff_nil, filter_keeps_none, Forall_forall.
    intros a Ha. apply list_elem_of_fmap in Ha as (s & -> & Hin). cbn.
    rewrite bool_decide_eq_true. intros ->. done.
  - rewrite filter_cons_False by (cbn; rewrite bool_decide_eq_true; done).
    apply elem_of_cons in Hs as [? | Hs]; [done|]. by apply IH.
Qed.

Lemma deliveries_to_handled (sid : socket_id) (socks : list socket_id)
    (messages : list entry) :
  NoDup socks → sid ∈ socks →
  deliveries_to sid (flat_map (handled socks) messages) = length messages.
Proof.
  intros Hnd Hs. induction messages as [|e rest IH]; [done|]. cbn [flat_map length].
  unfold handled at 1. rewrite !deliveries_to_app, deliveries_to_fanout_of, IH by done.
  done.
Qed.

(** X9. An iteration of the consumer loop in which nothing fails
    acknowledges exactly the entries it read, in the order it read them, logs
    no error, and leaves the pending list of the group as it found it (the
    group exists and the pending entries were delivered earlier). *)
Theorem clean_iteration_acks_what_it_read (env : Streams.failures) (it : nat)
    (p : Streams.process) (b : Streams.broker) :
  clean_iteration env it →
  is_Some (Streams.groups b !! G) →
  Forall (λ x, x ≤ Streams.last_delivered_id b G) (Streams.pending_ids b G) →
  let r := Streams.consume_body env it p b in
  Streams.acked_ids r.2 = Streams.delivered_ids r.2
  ∧ Forall (λ a, is_throw a = false ∧ a ≠ Streams.consume_error) r.2
  ∧ Streams.pending_ids r.1 G = Streams.pending_ids b G.
Proof.
  intros [Hread Hclean] [gr Hgr] Hpend. cbn zeta. unfold Streams.consume_body.
  rewrite Hread.
  destruct (Streams.xreadgroup b G _ 10) as [[b1 response]|] eqn:Hxread.
  2: { unfold Streams.xreadgroup in Hxread. rewrite Hgr in Hxread.
       by destruct (last _) in Hxread. }
  destruct (xreadgroup_spec _ _ _ _ _ Hxread) as (_ & _ & _ & Hnew).
  assert (∀ messages, response = Some messages →
            Streams.pending_ids b1 G = Streams.pending_ids b G ++ messages.*1) as Hb1.
  { intros messages ->. unfold Streams.xreadgroup in Hxread. rewrite Hgr in Hxread.
    unfold Streams.pending_ids. rewrite Hgr.
    destruct (last _) as [e|] in Hxread; [|done]. injection Hxread as <- <-.
    cbn. rewrite lookup_insert_eq. cbn. rewrite fmap_app. f_equal.
    rewrite <- list_fmap_compose. done. }
  assert (response = None → b1 = b) as Hnone.
  { intros ->. unfold Streams.xreadgroup in Hxread. rewrite Hgr in Hxread.
    destruct (last _) as [e|] in Hxread; [done|]. by injection Hxread as <-. }
  destruct response as [messages|].
  2: { rewrite Hnone by done. cbn [fst snd]. split; [done|]. split; [|done].
       by repeat constructor. }
  rewrite process_messages_clean by done. cbn [fst snd].
  change (Streams.acked_ids (XReadGroup ?g ?c ?n ?bl ?k ?f ?r :: ?l))
    with (Streams.acked_ids l).
  rewrite app_nil_r, acked_ids_handled. split; [|split].
  - unfold Streams.delivered_ids. cbn [flat_map].
    assert (flat_map (λ a : action, match a with
                                    | XReadGroup _ _ _ _ _ _ (Some messages0) => messages0.*1
                                    | _ => []
                                    end) (flat_map (handled (sockets p)) messages) = [])
      as ->; [|by rewrite app_nil_r].
    pose proof (process_messages_broker env it 0 (sockets p) messages b1 0) as (_&_&_&_&H).
    rewrite process_messages_clean in H by done. exact H.
  - constructor; [done|].
    pose proof (process_messages_trace env it 0 (sockets p) messages b1) as [Hall Hthrow].
    rewrite process_messages_clean in Hall, Hthrow by done. cbn [fst snd] in *.
    apply Forall_forall. intros a Ha. split.
    + destruct (is_throw a) eqn:Ht; [|done].
      apply list_elem_of_lookup_1 in Ha as [i Hi]. by destruct (Hthrow i a Hi Ht).
    + rewrite Forall_forall in Hall. by destruct (Hall a Ha).
  - rewrite xack_all_pending_ids, (Hb1 messages eq_refl), filter_app.
    rewrite (filter_keeps_none _ (messages.*1)).
    2: { apply Forall_forall. intros x Hx Hn. by apply Hn. }
    rewrite app_nil_r. apply filter_keeps_all.
    rewrite Forall_forall in *. intros x Hx Hin.
    destruct (Hnew messages x eq_refl Hin) as (Hlt & _). specialize (Hpend x Hx). lia.
Qed.

(** X10. In an iteration in which nothing fails, every entry the process
    read is sent exactly once to each of its local sockets: a socket
    receives as many events as the batch has entries. *)
Theorem stream_entry_reaches_each_socket_once (env : Streams.failures) (it : nat)
    (p : Streams.process) (b : Streams.broker) (sid : socket_id) :
  clean_iteration env it → NoDup (sockets p) → sid ∈ sockets p →
  let r := Streams.consume_body env it p b in
  deliveries_to sid r.2 = length (Streams.delivered_ids r.2).
Proof.
  intros [Hread Hclean] Hnd Hs. cbn zeta. unfold Streams.consume_body. rewrite Hread.
  destruct (Streams.xreadgroup b G _ 10) as [[b1 [messages|]]|]; [|done..].
  rewrite process_messages_clean by done. cbn [fst snd]. rewrite app_nil_r.
  change (deliveries_to sid (XReadGroup ?g ?c ?n ?bl ?k ?f ?r :: ?l))
    with (deliveries_to sid l).
  rewrite deliveries_to_handled by done.
  unfold Streams.delivered_ids. cbn [flat_map].
  pose proof (process_messages_broker env it 0 (sockets p) messages b1 0) as (_&_&_&_&H).
  rewrite process_messages_clean in H by done. unfold Streams.delivered_ids in H.
  cbn [fst snd] in H. rewrite H, app_nil_r. by rewrite length_fmap.
Qed.

End CleanIteration.

(** ** No entry is read twice *)

Section ReadOnce.
Local Abbreviation G := Streams.CONSUMER_GROUP.

Lemma entries_ordered_NoDup (l : list entry) : entries_ordered l → NoDup l.*1.
Proof.
  unfold entries_ordered. induction 1 as [|e l Hl IH He]; [constructor|].
  rewrite fmap_cons. constructor; [|done].
  intros Hin. apply list_elem_of_fmap in Hin as (e' & Heq & Hin).
  rewrite Forall_forall in He. specialize (He e' Hin). lia.
Qed.

Lemma xreadgroup_sublist (b b' : Streams.broker) (c : string) (n : nat)
    (messages : list entry) :
  Streams.xreadgroup b G c n = Some (b', Some messages) →
  messages `sublist_of` Streams.stream b.
Proof.
  unfold Streams.xreadgroup. destruct (Streams.groups b !! G) as [gr|]; [|done].
  destruct (last _); [|done]. intros [= _ <-].
  etrans; [apply sublist_take|apply sublist_filter].
Qed.

(** What one iteration reads: ids above the last-delivered id it found, each
    once, none above the last-delivered id it leaves. *)
Lemma consume_body_reads (env : Streams.failures) (it : nat) (p : Streams.process)
    (b : Streams.broker) :
  entries_ordered (Streams.stream b) →
  let r := Streams.consume_body env it p b in
  NoDup (Streams.delivered_ids r.2)
  ∧ ∀ x, x ∈ Streams.delivered_ids r.2 →
         Streams.last_delivered_id b G < x ≤ Streams.last_delivered_id r.1 G.
Proof.
  intros Hord. cbn zeta. unfold Streams.consume_body.
  assert (∀ x : nat, x ∈ [] → Streams.last_delivered_id b G < x ≤ Streams.last_delivered_id b G)
    as Hnil by (intros x Hx; by apply elem_of_nil in Hx).
  destruct (Streams.read_fails env it); [split; [constructor|done]|].
  destruct (Streams.xreadgroup b G _ 10) as [[b1 response]|] eqn:Hread;
    [|split; [constructor|done]].
  destruct (xreadgroup_spec _ _ _ _ _ Hread) as (_ & _ & _ & Hnew).
  destruct response as [messages|].
  2: { cbn [fst snd]. split; [constructor|]. intros x Hx. by apply elem_of_nil in Hx. }
  pose proof (process_messages_broker env it 0 (sockets p) messages b1 0)
    as (_ & M2 & _ & _ & M5).
  destruct (Streams.process_messages env it 0 (sockets p) messages b1) as [[b2 acts] o].
  cbn [fst snd] in *.
  assert (Streams.delivered_ids
            (XReadGroup G (Streams.CONSUMER_NAME (Streams.pid (app p)))
               10 5000%N Streams.STREAM_KEY ">" (Some messages)
             :: acts ++ match o with Threw => [Streams.consume_error] | Returned => [] end)
          = messages.*1) as ->.
  { unfold Streams.delivered_ids in *. cbn [flat_map]. rewrite flat_map_app, M5.
    destruct o; cbn; by rewrite app_nil_r. }
  split.
  - apply entries_ordered_NoDup. eapply entries_ordered_sublist; [exact Hord|].
    by eapply xreadgroup_sublist.
  - intros x Hx. destruct (Hnew messages x eq_refl Hx) as (Hlt & _ & Hle).
    rewrite M2. split; [done|by apply Hle].
Qed.

(** X11. Whatever the processes of the group do, in whatever order
    (initialize, run iterations of their loops, append notices) and whatever
    fails, no entry of the stream is read twice: the ids returned by all the
    reads of a run are distinct, and each is above the last-delivered id the
    run started from. *)
Theorem no_entry_is_read_twice (env : Streams.failures) (it : nat)
    (steps : list Streams.step) (b : Streams.broker) :
  entries_ordered (Streams.stream b) →
  let r := Streams.run_group env it steps b in
  NoDup (Streams.delivered_ids r.2)
  ∧ ∀ x, x ∈ Streams.delivered_ids r.2 → Streams.last_delivered_id b G < x.
Proof.
  cbn zeta. revert it b. induction steps as [|st steps IH]; intros it b Hord.
  { cbn. split; [constructor|]. intros x Hx. by apply elem_of_nil in Hx. }
  cbn [Streams.run_group].
  assert (∃ b1 acts1,
            match st with
            | Streams.Init => ((Streams.xgroup_create b G).1, [])
            | Streams.Consume p => Streams.consume_body env it p b
            | Streams.Append fields => (Streams.xadd b fields, [])
            end = (b1, acts1)
            ∧ entries_ordered (Streams.stream b1)
            ∧ NoDup (Streams.delivered_ids acts1)
            ∧ Streams.last_delivered_id b G ≤ Streams.last_delivered_id b1 G
            ∧ ∀ x, x ∈ Streams.delivered_ids acts1 →
                   Streams.last_delivered_id b G < x ≤ Streams.last_delivered_id b1 G)
    as (b1 & acts1 & -> & Hord1 & Hnd1 & Hle1 & Hnew1).
  { destruct st as [|p|fields].
    - eexists _, _. split; [reflexivity|]. unfold Streams.xgroup_create.
      unfold Streams.last_delivered_id.
      destruct (Streams.groups b !! G) eqn:Hgr; cbn [fst Streams.stream Streams.groups].
      + rewrite Hgr. split; [done|]. split; [constructor|]. split; [done|].
        intros x Hx. by apply elem_of_nil in Hx.
      + rewrite lookup_insert_eq. split; [done|]. split; [constructor|]. split; [done|].
        intros x Hx. by apply elem_of_nil in Hx.
    - destruct (consume_body_reads env it p b Hord) as [C1 C2].
      destruct (consume_body_broker env it p b 0) as (C3 & C4 & _).
      destruct (Streams.consume_body env it p b) as [b1 acts1]. cbn [fst snd] in *.
      eexists _, _. split; [reflexivity|]. rewrite C3. done.
    - eexists _, _. split; [reflexivity|]. split; [by apply xadd_ordered|].
      split; [constructor|]. split; [done|]. intros x Hx. by apply elem_of_nil in Hx. }
  destruct (IH (S it) b1 Hord1) as [I1 I2].
  destruct (Streams.run_group env (S it) steps b1) as [b2 acts2]. cbn [fst snd] in *.
  unfold Streams.delivered_ids in *. rewrite flat_map_app. split.
  - apply NoDup_app. split; [done|]. split; [|done].
    intros x Hx1 Hx2. apply Hnew1 in Hx1. apply I2 in Hx2. lia.
  - intros x Hx. apply elem_of_app in Hx as [Hx | Hx]; [by apply Hnew1|].
    apply I2 in Hx. lia.
Qed.

End ReadOnce.

(** ** The notices of a drain *)

Section DrainNotices.

Lemma xadds_app (l1 l2 : list action) : xadds (l1 ++ l2) = xadds l1 ++ xadds l2.
Proof. apply omap_app. Qed.

Lemma disconnect_all_xadds (throws : socket_id → bool) (l : list socket_id)
    (p : Streams.process) :
  Forall (λ s, throws s = false) l →
  xadds (disconnect_all Streams.on_disconnect throws l p).1.2
  = map (λ s, Streams.xadd_fields (Streams.disconnectMessage s (Streams.now (app p)))) l.
Proof.
  intros Hl. revert p. induction Hl as [|sid l Hsid Hl IH]; intros p; [done|].
  cbn [disconnect_all]. rewrite Hsid. unfold close_socket. cbn [Streams.on_disconnect].
  specialize (IH (set_app (app p) (set_sockets (map_delete sid (sockets p)) p))).
  destruct (disconnect_all Streams.on_disconnect throws l _) as [[p2 acts2] o].
  cbn [fst snd map] in *.
  change (xadds (SocketDisconnect sid :: ?l)) with (xadds l).
  rewrite xadds_app, IH. done.
Qed.

(** X13. The first termination signal on the stream relay appends, for
    every connected socket and in the order of the sockets, the disconnect
    notice of that socket to the stream, stamped with the current time, and
    appends nothing else. *)
Theorem drain_appends_disconnect_notices (p : Streams.process) (signal : string)
    (throws : socket_id → bool) :
  shutdownInProgress p = false → exited p = None →
  Forall (λ s, throws s = false) (sockets p) →
  xadds (Streams.handle (Streams.Lifecycle (Signal signal throws)) p).2
  = map (λ s, Streams.xadd_fields (Streams.disconnectMessage s (Streams.now (app p))))
      (sockets p).
Proof.
  intros Hflag Halive Hok. unfold Streams.handle, alive. rewrite Halive. cbn [lifecycle].
  unfold gracefulShutdown. rewrite Hflag.
  pose proof (disconnect_all_xadds throws (sockets (set_shutdownInProgress true p))
                (set_shutdownInProgress true p) Hok) as Hx.
  pose proof (disconnect_all_returns Streams.on_disconnect streams_on_disconnect_quiet throws
                (sockets (set_shutdownInProgress true p))
                (set_shutdownInProgress true p) Hok) as [Hret _].
  destruct (disconnect_all _ throws _ _) as [[p1 acts1] o]. cbn [fst snd] in *. subst o.
  cbn [snd]. change (xadds (LogInfo ?s :: ?l)) with (xadds l).
  rewrite xadds_app, Hx. cbn. by rewrite app_nil_r.
Qed.

End DrainNotices.

(** ** Joining and leaving the global room *)

Lemma adapter_own_room (sid : socket_id) :
  Rooms.adapter_join_room sid sid = [] ∧ Rooms.adapter_leave_room sid sid = [].
Proof.
  unfold Rooms.adapter_join_room, Rooms.adapter_leave_room.
  by rewrite !decide_False by (intros H; by apply H).
Qed.

Lemma on_connection_fresh (sid : socket_id) (r : Rooms.registry) :
  r !! sid = None → sid ≠ Rooms.GLOBAL_ROOM →
  Rooms.on_connection sid r
  = (<[sid := [sid; Rooms.GLOBAL_ROOM]]> r,
     [ConsoleLog ("New client connected: " +:+ sid);
      ConsoleLog (Rooms.joined Rooms.GLOBAL_ROOM sid);
      ServerSideEmit "join-room" Rooms.GLOBAL_ROOM sid;
      BroadcastFrom sid Rooms.GLOBAL_ROOM "user-joined"
        (Rooms.user_notice sid
           ("User " +:+ sid +:+ " has joined the " +:+ Rooms.GLOBAL_ROOM))]).
Proof.
  intros Hfresh Hne. unfold Rooms.on_connection.
  assert (Rooms.socket_join sid sid r = (<[sid := [sid]]> r, [])) as ->.
  { unfold Rooms.socket_join. rewrite Hfresh. cbn [default].
    rewrite decide_False by apply not_elem_of_nil.
    by destruct (adapter_own_room sid) as [-> _]. }
  assert (Rooms.socket_join sid Rooms.GLOBAL_ROOM (<[sid := [sid]]> r)
          = (<[sid := [sid; Rooms.GLOBAL_ROOM]]> r,
             [ConsoleLog (Rooms.joined Rooms.GLOBAL_ROOM sid);
              ServerSideEmit "join-room" Rooms.GLOBAL_ROOM sid])) as ->.
  { unfold Rooms.socket_join. rewrite lookup_insert_eq. cbn [default].
    rewrite decide_False.
    2: { intros Hin. apply list_elem_of_singleton in Hin. done. }
    rewrite insert_insert_eq. unfold Rooms.adapter_join_room.
    by rewrite decide_True by done. }
  reflexivity.
Qed.

(** X12. A client that connects is put in its own room and in the global
    room, and the peers are told once, about the global room only; when it
    disconnects the peers are told once that it left the global room, and
    the registry is as it was before the client connected. *)
Theorem join_then_leave (sid : socket_id) (r : Rooms.registry) :
  r !! sid = None → sid ≠ Rooms.GLOBAL_ROOM →
  let r1 := Rooms.handle (Rooms.Connection sid) r in
  let r2 := Rooms.handle (Rooms.Disconnect sid) r1.1 in
  r1.1 !! sid = Some [sid; Rooms.GLOBAL_ROOM]
  ∧ Rooms.server_side_emits r1.2 = [ServerSideEmit "join-room" Rooms.GLOBAL_ROOM sid]
  ∧ Rooms.server_side_emits r2.2 = [ServerSideEmit "leave-room" Rooms.GLOBAL_ROOM sid]
  ∧ r2.1 = r.
Proof.
  intros Hfresh Hne. cbn zeta. cbn [Rooms.handle].
  rewrite on_connection_fresh by done. cbn [fst snd].
  split; [by rewrite lookup_insert_eq|]. split; [reflexivity|].
  unfold Rooms.on_disconnect, Rooms.socket_leave_all. rewrite lookup_insert_eq.
  cbn [default from_option id flat_map fst snd]. destruct (adapter_own_room sid) as [_ ->].
  unfold Rooms.adapter_leave_room. rewrite decide_True by done.
  split; [reflexivity|]. by apply delete_insert_id.
Qed.

Lemma join_then_leave_witness :
  let r : Rooms.registry := (Rooms.on_connection "first" ∅).1 in
  let r1 := Rooms.handle (Rooms.Connection "second") r in
  let r2 := Rooms.handle (Rooms.Disconnect "second") r1.1 in
  r1.1 !! "second" = Some ["second"; "global-room"]
  ∧ Rooms.server_side_emits r1.2 = [ServerSideEmit "join-room" "global-room" "second"]
  ∧ Rooms.server_side_emits r2.2 = [ServerSideEmit "leave-room" "global-room" "second"]
  ∧ r2.1 = r.
Proof.
  intros r. apply (join_then_leave "second" r); [|done].
  apply (bool_decide_unpack _). vm_compute. exact I.
Defined.

(** ** The drain of the room relay *)

Lemma rooms_on_disconnect_registered (sid : socket_id) (r : Rooms.registry) :
  sid ≠ Rooms.GLOBAL_ROOM → r !! sid = Some ([sid; Rooms.GLOBAL_ROOM] : list string) →
  Rooms.on_disconnect sid r
  = (delete sid r,
     [ConsoleLog (Rooms.left Rooms.GLOBAL_ROOM sid);
      ServerSideEmit "leave-room" Rooms.GLOBAL_ROOM sid;
      ConsoleLog ("Client disconnected: " +:+ sid);
      BroadcastFrom sid Rooms.GLOBAL_ROOM "user-left"
        (Rooms.user_notice sid
           ("User " +:+ sid +:+ " has left the " +:+ Rooms.GLOBAL_ROOM))]).
Proof.
  intros Hne Hr. unfold Rooms.on_disconnect, Rooms.socket_leave_all. rewrite Hr.
  cbn [default from_option id flat_map fst snd]. destruct (adapter_own_room sid) as [_ ->].
  unfold Rooms.adapter_leave_room. by rewrite decide_True by done.
Qed.

Lemma rooms_disconnect_all (throws : socket_id → bool) (l : list socket_id)
    (p : proc Rooms.registry) :
  Forall (λ s, throws s = false) l → NoDup l →
  (∀ s, s ∈ l → s ≠ Rooms.GLOBAL_ROOM ∧ app p !! s = Some ([s; Rooms.GLOBAL_ROOM] : list string)) →
  let r := disconnect_all Rooms.on_disconnect throws l p in
  r.2 = Returned
  ∧ Rooms.server_side_emits r.1.2
    = map (λ s, ServerSideEmit "leave-room" Rooms.GLOBAL_ROOM s) l
  ∧ drain_actions r.1.2 = map SocketDisconnect l
  ∧ exit_codes r.1.2 = []
  ∧ shutdownInProgress r.1.1 = shutdownInProgress p ∧ exited r.1.1 = exited p
  ∧ drain r.1.1 = drain p.
Proof.
  intros Hl. revert p. induction Hl as [|sid l Hsid Hl IH]; intros p Hnd Hreg; [done|].
  apply NoDup_cons in Hnd as [Hsid' Hnd]. cbn zeta. cbn [disconnect_all]. rewrite Hsid.
  destruct (Hreg sid) as [Hne Hr]; [apply list_elem_of_here|].
  unfold close_socket. rewrite rooms_on_disconnect_registered by done.
  set (p1 := set_app (delete sid (app p)) (set_sockets (map_delete sid (sockets p)) p)).
  destruct (IH p1 Hnd) as (I1 & I2 & I3 & I4 & I5 & I6 & I7).
  { intros s Hs. destruct (Hreg s) as [Hne' Hr']; [by apply list_elem_of_further|].
    split; [done|]. cbn [p1 app set_app set_sockets].
    rewrite lookup_delete_ne by (intros ->; done). done. }
  cbn zeta in *. destruct (disconnect_all Rooms.on_disconnect throws l p1) as [[p2 acts2] o].
  cbn [fst snd map] in *. split; [done|]. split; [|split; [|split]].
  - change (SocketDisconnect sid :: ?a ++ acts2) with (([SocketDisconnect sid] ++ a) ++ acts2).
    rewrite server_side_emits_app, I2. reflexivity.
  - change (SocketDisconnect sid :: ?a ++ acts2) with (([SocketDisconnect sid] ++ a) ++ acts2).
    rewrite drain_actions_app, I3. reflexivity.
  - change (SocketDisconnect sid :: ?a ++ acts2) with (([SocketDisconnect sid] ++ a) ++ acts2).
    rewrite exit_codes_app, I4. reflexivity.
  - done.
Qed.

Lemma rooms_first_signal (p : proc Rooms.registry) (signal : string)
    (throws : socket_id → bool) :
  rooms_registered p → shutdownInProgress p = false → exited p = None →
  Forall (λ s, throws s = false) (sockets p) →
  let r := rooms_lifecycle (Signal signal throws) p in
  Rooms.server_side_emits r.2
  = map (λ s, ServerSideEmit "leave-room" Rooms.GLOBAL_ROOM s) (sockets p)
  ∧ drain_actions r.2 = map SocketDisconnect (sockets p) ++ [FastifyClose]
  ∧ exit_codes r.2 = []
  ∧ exited r.1 = None ∧ drain r.1 = AwaitClose.
Proof.
  intros [Hnd Hreg] Hflag Halive Hok. cbn zeta.
  unfold rooms_lifecycle, alive. rewrite Halive. unfold gracefulShutdown. rewrite Hflag.
  destruct (rooms_disconnect_all throws (sockets (set_shutdownInProgress true p))
              (set_shutdownInProgress true p) Hok Hnd Hreg)
    as (D1 & D2 & D3 & D4 & D5 & D6 & D7).
  cbn zeta in *.
  destruct (disconnect_all Rooms.on_disconnect throws _ _) as [[p1 acts1] o].
  cbn [fst snd sockets set_shutdownInProgress shutdownInProgress exited drain] in *.
  subst o. cbn [fst snd exited drain set_drain].
  change (LogInfo ?s :: acts1 ++ ?l) with ([LogInfo s] ++ acts1 ++ l).
  rewrite !server_side_emits_app, !drain_actions_app, !exit_codes_app, D2, D3, D4, D6.
  repeat split; try done. cbn. by rewrite app_nil_r.
Qed.

(** X14. The drain of the room relay, from a process whose sockets are
    registered in the global room: the first signal tells the peers, for
    every socket in turn, that it left the global room; once the server
    closed the process exits with status 0 (with status 1 when the close
    throws); the drain calls are the socket closes and the server close, and
    no broker client is quit. *)
Theorem rooms_drain_notifies_and_exits (p : proc Rooms.registry) (signal : string)
    (throws : socket_id → bool) (close : outcome) :
  rooms_registered p → shutdownInProgress p = false → exited p = None →
  Forall (λ s, throws s = false) (sockets p) →
  let r1 := rooms_lifecycle (Signal signal throws) p in
  let r2 := rooms_lifecycle (CloseSettled close) r1.1 in
  Rooms.server_side_emits (r1.2 ++ r2.2)
  = map (λ s, ServerSideEmit "leave-room" Rooms.GLOBAL_ROOM s) (sockets p)
  ∧ drain_actions (r1.2 ++ r2.2) = map SocketDisconnect (sockets p) ++ [FastifyClose]
  ∧ exit_codes (r1.2 ++ r2.2) = [match close with Returned => 0%Z | Threw => 1%Z end]
  ∧ exited r2.1 = Some (match close with Returned => 0%Z | Threw => 1%Z end).
Proof.
  intros Hreg Hflag Halive Hok r1.
  destruct (rooms_first_signal p signal throws Hreg Hflag Halive Hok)
    as (S1 & S2 & S3 & S4 & S5).
  fold r1 in S1, S2, S3, S4, S5. cbn zeta.
  rewrite server_side_emits_app, drain_actions_app, exit_codes_app, S1, S2, S3.
  unfold rooms_lifecycle, alive. rewrite S4. unfold rooms_after_close. rewrite S5.
  destruct close; cbn [fst snd]; repeat split; try reflexivity;
    cbn; by rewrite ?app_nil_r.
Qed.

Lemma rooms_drain_notifies_and_exits_witness :
  let p : proc Rooms.registry :=
    Proc (Rooms.on_connection "b" (Rooms.on_connection "a" ∅).1).1 ["a"; "b"]
      false NotDraining None in
  let r1 := rooms_lifecycle (Signal "SIGTERM" (λ _, false)) p in
  let r2 := rooms_lifecycle (CloseSettled Returned) r1.1 in
  Rooms.server_side_emits (r1.2 ++ r2.2)
  = [ServerSideEmit "leave-room" "global-room" "a";
     ServerSideEmit "leave-room" "global-room" "b"]
  ∧ drain_actions (r1.2 ++ r2.2) = [SocketDisconnect "a"; SocketDisconnect "b"; FastifyClose]
  ∧ exit_codes (r1.2 ++ r2.2) = [0%Z]
  ∧ exited r2.1 = Some 0%Z.
Proof.
  intros p.
  apply (rooms_drain_notifies_and_exits p "SIGTERM" (λ _, false) Returned);
    [|reflexivity|reflexivity|by repeat constructor].
  split.
  - apply (bool_decide_unpack _). vm_compute. exact I.
  - intros s Hs. apply elem_of_cons in Hs as [-> | Hs];
      [|apply list_elem_of_singleton in Hs as ->]; split; try done;
      apply (bool_decide_unpack _); vm_compute; exact I.
Defined.

(** ** The further properties on examples *)

(** A request of the adapter, which is not JSON, with two listeners. *)
Lemma other_channel_is_ignored_witness :
  PubSub.emit_message json_rejecting ["a"; "b"] ["a"; "b"] "socket.io-request#/#" "not json"
  = ([], Returned).
Proof. apply other_channel_is_ignored. discriminate. Defined.

(** A message that is not JSON, with one client connected. *)
Lemma rejected_message_is_not_relayed_witness :
  Forall (λ a, is_fanout a = false)
    (PubSub.handle (json_constant "{}") json_rejecting
       (PubSub.Message "not json")
       (PubSub.handle (json_constant "{}") json_rejecting (PubSub.Connection "a")
          (start [])).1).2.
Proof. apply rejected_message_is_not_relayed. reflexivity. Defined.

(** A process that just started. *)
Lemma no_clients_no_relay_witness :
  PubSub.listeners (start []) = []
  ∧ PubSub.handle (json_constant "{}") (json_reader ∅)
      (PubSub.Message "{}") (start []) = (start [], []).
Proof.
  apply (no_clients_no_relay (json_constant "{}") (json_reader ∅)); [|reflexivity].
  apply PubSub.reachable_start.
Defined.

(** Three clients: each gets three copies. *)
Lemma each_socket_gets_one_copy_per_listener_witness :
  let stringify := json_constant "{}" in
  let parse := json_reader ∅ in
  let p1 := (PubSub.handle stringify parse (PubSub.Connection "a") (start [])).1 in
  let p2 := (PubSub.handle stringify parse (PubSub.Connection "b") p1).1 in
  let p3 := (PubSub.handle stringify parse (PubSub.Connection "c") p2).1 in
  PubSub.copies "b" "new-message" ∅
    (PubSub.handle stringify parse (PubSub.Message "{}") p3).2
  = length (sockets p3)
  ∧ length (sockets p3) = 3.
Proof.
  intros stringify parse p1 p2 p3. split; [|reflexivity].
  apply (each_socket_gets_one_copy_per_listener stringify parse p3 "{}" ∅ "b");
    [|reflexivity|reflexivity|apply (bool_decide_unpack _); vm_compute; exact I].
  apply PubSub.reachable_step; [apply PubSub.reachable_step; [apply PubSub.reachable_step|]|].
  - apply PubSub.reachable_start.
  - unfold PubSub.enabled. apply (bool_decide_unpack _). vm_compute. exact I.
  - unfold PubSub.enabled. apply (bool_decide_unpack _). vm_compute. exact I.
  - unfold PubSub.enabled. apply (bool_decide_unpack _). vm_compute. exact I.
Defined.

(** A second client comes and goes. *)
Lemma connect_then_disconnect_witness :
  let stringify := json_constant "{}" in
  let parse := json_reader ∅ in
  let p := (PubSub.handle stringify parse (PubSub.Connection "a") (start [])).1 in
  let r1 := PubSub.handle stringify parse (PubSub.Connection "b") p in
  let r2 := PubSub.handle stringify parse (PubSub.Disconnect "b") r1.1 in
  r2.1 = p
  ∧ publishes (r1.2 ++ r2.2) = [("chat-messages", "{}"); ("chat-messages", "{}")].
Proof.
  intros stringify parse p.
  apply (connect_then_disconnect stringify parse "b" p); [|reflexivity].
  apply (bool_decide_unpack _). vm_compute. exact I.
Defined.

(** SIGTERM with two clients connected. *)
Lemma drain_removes_every_listener_witness :
  let stringify := json_constant "{}" in
  let parse := json_reader ∅ in
  let p1 := (PubSub.handle stringify parse (PubSub.Connection "a") (start [])).1 in
  let p2 := (PubSub.handle stringify parse (PubSub.Connection "b") p1).1 in
  let p' := (PubSub.handle stringify parse
               (PubSub.Lifecycle (Signal "SIGTERM" (λ _, false))) p2).1 in
  PubSub.listeners p2 = ["a"; "b"]
  ∧ sockets p' = [] ∧ PubSub.listeners p' = [] ∧ drain p' = AwaitClose
  ∧ shutdownInProgress p' = true.
Proof.
  intros stringify parse p1 p2. split; [reflexivity|].
  apply (drain_removes_every_listener stringify parse p2 "SIGTERM" (λ _, false));
    [|reflexivity|reflexivity|by repeat constructor].
  apply PubSub.reachable_step; [apply PubSub.reachable_step|].
  - apply PubSub.reachable_start.
  - unfold PubSub.enabled. apply (bool_decide_unpack _). vm_compute. exact I.
  - unfold PubSub.enabled. apply (bool_decide_unpack _). vm_compute. exact I.
Defined.

Lemma no_failures_clean (it : nat) : clean_iteration Streams.no_failures it.
Proof. by split. Qed.

(** The consumer reads the only notice of the stream. *)
Lemma clean_iteration_acks_what_it_read_witness :
  let r := Streams.consume_body Streams.no_failures 0 consumer_process one_notice in
  Streams.delivered_ids r.2 = [1]
  ∧ Streams.acked_ids r.2 = Streams.delivered_ids r.2
  ∧ Forall (λ a, is_throw a = false ∧ a ≠ Streams.consume_error) r.2
  ∧ Streams.pending_ids r.1 Streams.CONSUMER_GROUP
    = Streams.pending_ids one_notice Streams.CONSUMER_GROUP.
Proof.
  intros r. split; [reflexivity|].
  apply (clean_iteration_acks_what_it_read Streams.no_failures 0 consumer_process one_notice).
  - apply no_failures_clean.
  - apply (bool_decide_unpack _). vm_compute. exact I.
  - apply (bool_decide_unpack _). vm_compute. exact I.
Defined.

Lemma stream_entry_reaches_each_socket_once_witness :
  let r := Streams.consume_body Streams.no_failures 0 consumer_process one_notice in
  deliveries_to "s" r.2 = length (Streams.delivered_ids r.2)
  ∧ length (Streams.delivered_ids r.2) = 1.
Proof.
  intros r. split; [|reflexivity].
  apply (stream_entry_reaches_each_socket_once Streams.no_failures 0 consumer_process
           one_notice "s").
  - apply no_failures_clean.
  - apply (bool_decide_unpack _). vm_compute. exact I.
  - apply (bool_decide_unpack _). vm_compute. exact I.
Defined.

(** Two processes read in turn while a notice is appended; one fan-out
    fails. *)
Lemma no_entry_is_read_twice_witness :
  let r := Streams.run_group fanout_fails_first 0
             [Streams.Consume consumer_process; Streams.Append ["id"; "b"];
              Streams.Consume restarted_process; Streams.Consume consumer_process]
             one_notice in
  Streams.delivered_ids r.2 = [1; 2]
  ∧ NoDup (Streams.delivered_ids r.2)
  ∧ ∀ x, x ∈ Streams.delivered_ids r.2 →
         Streams.last_delivered_id one_notice Streams.CONSUMER_GROUP < x.
Proof.
  intros r. split; [reflexivity|].
  apply (no_entry_is_read_twice fanout_fails_first 0).
  unfold one_notice, group_created. apply xadd_ordered. constructor.
Defined.

(** SIGINT on a stream relay with two clients. *)
Lemma drain_appends_disconnect_notices_witness :
  let p : Streams.process :=
    Proc (Streams.AppState 100 "2024-01-01T00:00:09.000Z") ["a"; "b"]
      false NotDraining None in
  xadds (Streams.handle (Streams.Lifecycle (Signal "SIGINT" (λ _, false))) p).2
  = [["id"; "a"; "message"; "Client disconnected: a"; "timestamp";
      "2024-01-01T00:00:09.000Z"];
     ["id"; "b"; "message"; "Client disconnected: b"; "timestamp";
      "2024-01-01T00:00:09.000Z"]].
Proof.
  intros p.
  apply (drain_appends_disconnect_notices p "SIGINT" (λ _, false));
    [reflexivity|reflexivity|by repeat constructor].
Defined.

(** ** From the append of a notice to its fan-out *)

(** X15. A notice appended to a stream the group has read completely is what
    the next iteration of any consumer reads, when nothing fails in it: the
    iteration reads that one entry, emits the notice as the object it was
    built from to every local socket, and acknowledges it. *)
Theorem appended_notice_is_relayed (env : Streams.failures) (it : nat)
    (p : Streams.process) (b : Streams.broker) (m : Streams.chat_message) :
  clean_iteration env it → stream_drained b →
  let id := S (Streams.top_id (Streams.stream b)) in
  (Streams.consume_body env it p (Streams.xadd b (Streams.xadd_fields m))).2
  = XReadGroup Streams.CONSUMER_GROUP (Streams.CONSUMER_NAME (Streams.pid (app p)))
      10 5000%N Streams.STREAM_KEY ">" (Some [(id, Streams.xadd_fields m)])
    :: LogInfo ("Processing message ID " +:+ pretty id +:+ ":")
    :: io_emit (sockets p) "new-message" (Streams.to_object m)
    ++ [XAck Streams.STREAM_KEY Streams.CONSUMER_GROUP id].
Proof.
  intros [Hread Hclean] ([gr Hgr] & Hall & Htop). cbn zeta.
  unfold Streams.last_delivered_id in *. rewrite Hgr in *.
  unfold Streams.consume_body. rewrite Hread.
  unfold Streams.xreadgroup, Streams.xadd. cbn [Streams.groups Streams.stream].
  rewrite Hgr, filter_app.
  rewrite (filter_keeps_none _ (Streams.stream b)).
  2: { eapply Forall_impl; [exact Hall|]. cbn. intros e He. lia. }
  rewrite filter_cons_True by (cbn; lia).
  set (e := (S (Streams.top_id (Streams.stream b)), Streams.xadd_fields m)).
  change (take 10 ([] ++ e :: filter _ [])) with [e]. cbn [last].
  rewrite process_messages_clean by done. cbn [fst snd flat_map].
  unfold handled, fanout_of. cbn [fst snd]. by rewrite !app_nil_r.
Qed.

Lemma group_created_drained : stream_drained group_created.
Proof.
  split; [|split].
  - apply (bool_decide_unpack _). vm_compute. exact I.
  - constructor.
  - vm_compute. lia.
Qed.

(** The first notice of a stream whose group was just created. *)
Lemma appended_notice_is_relayed_witness :
  let m := Streams.connectMessage "a" "2024-01-01T00:00:00.000Z" in
  (Streams.consume_body Streams.no_failures 0 consumer_process
     (Streams.xadd group_created (Streams.xadd_fields m))).2
  = [XReadGroup "chat-group" "consumer-100" 10 5000%N "chat-messages" ">"
       (Some [(1, Streams.xadd_fields m)]);
     LogInfo "Processing message ID 1:";
     IoEmit "new-message" (Streams.to_object m);
     Deliver "s" "new-message" (Streams.to_object m);
     XAck "chat-messages" "chat-group" 1].
Proof.
  intros m.
  apply (appended_notice_is_relayed Streams.no_failures 0 consumer_process group_created m).
  - apply no_failures_clean.
  - apply group_created_drained.
Defined.
